(** * Stories editor store: reducers and the right-click wrapper

    A shallow embedding of the reducers of the stories editor store
    ([animations], [currentPage], [blocks]) and of the
    [withRightClickHandler] higher-order component, with the properties
    stated about them.

    Conventions of the embedding.
    - A JavaScript value that is a string or [undefined] is an
      [option string]; [None] is [undefined].  An absent property reads as
      [undefined], so an absent property and a property holding
      [undefined] are both [None].
    - Numbers that the code only stores (duration, delay) are [Z].
    - An object used as a dictionary ([animationOrder]) is a [gmap] keyed by
      the property name; arrays are lists and [arr[i].f = v] is [alter].
    - Identifiers (of pages, of entries, of blocks) are the editor's client
      ids: strings, or [undefined] where an action leaves the field out.
      A page key naming a member of [Object.prototype]
      ([Js.inheritedKeys]) for which the state has no entry of its own is
      outside the model: there [animationOrder[ page ]] reads the
      inherited member, not [undefined], and every recognised action
      throws.  Statements about when a call throws or succeeds carry the
      exclusion as a hypothesis.
    - The state is a tree: no array and no entry object occurs twice in it.
      The reducer updates the page's array in place; the array it works on
      is the one the prior state holds, so what a thrown exception leaves
      behind is the prior state with that array as updated so far.
    - A reducer call ends in one of three ways, kept apart by [outcome]:
      it hands back the very reference it received, it returns another
      value, or it throws. *)

From stdpp Require Import gmap strings list fin_maps pretty.

Local Open Scope Z_scope.

(** ** JavaScript helpers *)

Module Js.

(** [if ( x )] on a string-or-undefined value: [undefined] and the empty
    string are falsy. *)
Definition truthy (x : option string) : bool :=
  match x with
  | Some s => negb (String.eqb s "")
  | None => false
  end.

(** Property key of a value used in [obj[ x ]]. *)
Definition key (x : option string) : string := default "undefined" x.

(** The property names every object literal inherits from
    [Object.prototype].  For such a key, [obj[ key ]] on an object without
    an own property of that name reads the inherited member (a function,
    or the prototype itself) and not [undefined]. *)
Definition inheritedKeys : list string :=
  [ "constructor"; "hasOwnProperty"; "isPrototypeOf"; "propertyIsEnumerable";
    "toLocaleString"; "toString"; "valueOf"; "__proto__";
    "__defineGetter__"; "__defineSetter__"; "__lookupGetter__";
    "__lookupSetter__" ].

(** [Array.prototype.findIndex]; [None] stands for the result [-1]. *)
Fixpoint findIndex {A : Type} (p : A → bool) (l : list A) : option nat :=
  match l with
  | [] => None
  | x :: l' => if p x then Some 0%nat else S <$> findIndex p l'
  end.

(** [Array.prototype.indexOf] on an array of strings, with the numeric
    result of the source ([-1] when absent). *)
Fixpoint indexOf (l : list string) (x : option string) : Z :=
  match l with
  | [] => -1
  | y :: l' =>
      if bool_decide (Some y = x) then 0
      else let r := indexOf l' x in if bool_decide (r = -1) then -1 else r + 1
  end.

(** Start position of [splice]: a negative start counts from the end, and
    the result is clamped to the array. *)
Definition actualStart (len : nat) (start : Z) : nat :=
  if bool_decide (start < 0) then Z.to_nat (Z.max (Z.of_nat len + start) 0)
  else Z.to_nat (Z.min start (Z.of_nat len)).

(** [Array.prototype.splice( start, deleteCount, ...items )]: the array
    after the call and the array of removed elements. *)
Definition splice {A : Type} (l : list A) (start deleteCount : Z)
    (items : list A) : list A * list A :=
  let s := actualStart (length l) start in
  let d := Z.to_nat (Z.min (Z.max deleteCount 0) (Z.of_nat (length l - s))) in
  (take s l ++ items ++ drop (s + d) l, take d (drop s l)).

(** Keys visited by [for ( const k in arr )]: the indices, as strings. *)
Definition keys {A : Type} (l : list A) : list string :=
  (λ k : nat, pretty k) <$> seq 0 (length l).

End Js.

(** ** Outcome of a reducer call *)

Inductive outcome (S : Type) : Type :=
| SameRef              (* [return state;] the reference that was passed in *)
| NewVal (s : S)       (* a value built by the call, or taken from the action *)
| Throws (s : S).      (* a TypeError; [s] is the prior state as left behind *)
Arguments SameRef {S}.
Arguments NewVal {S} s.
Arguments Throws {S} s.

(** The state the store holds after the call. *)
Definition settle {S : Type} (prior : S) (o : outcome S) : S :=
  match o with
  | SameRef => prior
  | NewVal s => s
  | Throws s => s
  end.

(** ** Data model *)

(** Modelled from the spec: the [ANIMATION_STATUS] constants of
    [./constants], which is not part of the sources at hand; the spec gives
    the status as one of prepared, playing, stopped. *)
Inductive ANIMATION_STATUS : Set := playing | prepared | stopped.

Global Instance ANIMATION_STATUS_eq_dec : EqDecision ANIMATION_STATUS.
Proof. solve_decision. Defined.

Module Entry.

(** One element of a page's animation order. *)
Record t : Type := mk {
  id : option string;
  parent : option string;
  animationType : option string;
  duration : option Z;
  delay : option Z;
  status : option ANIMATION_STATUS
}.

Global Instance eq_dec : EqDecision t.
Proof. solve_decision. Defined.

(** [{ id: item, parent }] and [{ id: item, animationType }]. *)
Definition create (i p ty : option string) : t :=
  mk i p ty None None None.

Definition set_parent (v : option string) (e : t) : t :=
  mk (id e) v (animationType e) (duration e) (delay e) (status e).
Definition set_animationType (v : option string) (e : t) : t :=
  mk (id e) (parent e) v (duration e) (delay e) (status e).
Definition set_duration (v : option Z) (e : t) : t :=
  mk (id e) (parent e) (animationType e) v (delay e) (status e).
Definition set_delay (v : option Z) (e : t) : t :=
  mk (id e) (parent e) (animationType e) (duration e) v (status e).
Definition set_status (v : option ANIMATION_STATUS) (e : t) : t :=
  mk (id e) (parent e) (animationType e) (duration e) (delay e) v.

End Entry.

Module Action.

(** A dispatched action: its type and the payload fields the reducers
    destructure. *)
Record t : Type := mk {
  type : string;
  page : option string;
  item : option string;
  predecessor : option string;
  animationType : option string;
  duration : option Z;
  delay : option Z;
  order : option (list string);
  index : option Z
}.

End Action.

Module Animations.

(** State of the [animations] slice. *)
Record state : Type := mk {
  animationOrder : option (gmap string (list Entry.t))
}.

(** [{}], the default of the [state] parameter. *)
Definition initial : state := mk None.

(** [{ ...state.animationOrder }]. *)
Definition orderOf (st : state) : gmap string (list Entry.t) :=
  default ∅ (animationOrder st).

(** [animationOrder[ page ] || []]. *)
Definition pageOrder (st : state) (page : option string) : list Entry.t :=
  default [] (orderOf st !! Js.key page).

(** [pageAnimationOrder.findIndex( ( { id } ) => id === entry )]. *)
Definition entryIndex (pageAnimationOrder : list Entry.t)
    (entry : option string) : option nat :=
  Js.findIndex (λ e, bool_decide (Entry.id e = entry)) pageAnimationOrder.

(** The returned object:
    [{ ...state, animationOrder: { ...animationOrder, [ page ]: pageAnimationOrder } }]. *)
Definition withPage (st : state) (page : option string)
    (pageAnimationOrder : list Entry.t) : state :=
  mk (Some (<[Js.key page := pageAnimationOrder]> (orderOf st))).

(** What the prior state holds once the page's array has been updated in
    place: the array is the prior state's own when the page has one, and
    a fresh [[]] unknown to the prior state otherwise. *)
Definition inPlace (st : state) (page : option string)
    (pageAnimationOrder : list Entry.t) : state :=
  match orderOf st !! Js.key page with
  | Some _ => withPage st page pageAnimationOrder
  | None => st
  end.

(** The array after a run of statements, and whether the run threw. *)
Inductive run : Type :=
| Done (pageAnimationOrder : list Entry.t)
| Raised (pageAnimationOrder : list Entry.t).

(** Body of the loop over the successors' keys:
    [if ( entryIndex( successor ) !== -1 )
       pageAnimationOrder[ entryIndex( successor ) ].parent = itemPredecessor.parent;]
    [itemPredecessor] is the parent of the item: reading [.parent] of
    [undefined] is a TypeError, and of a string it is [undefined]. *)
Definition reparent (itemPredecessor : option string)
    (pageAnimationOrder : list Entry.t) (successor : string) : run :=
  match entryIndex pageAnimationOrder (Some successor) with
  | Some i =>
      match itemPredecessor with
      | None => Raised pageAnimationOrder
      | Some _ => Done (alter (Entry.set_parent None) i pageAnimationOrder)
      end
  | None => Done pageAnimationOrder
  end.

(** [for ( const successor in itemSuccessors ) { ... }]. *)
Fixpoint updateSuccessors (itemPredecessor : option string)
    (successors : list string) (pageAnimationOrder : list Entry.t) : run :=
  match successors with
  | [] => Done pageAnimationOrder
  | successor :: rest =>
      match reparent itemPredecessor pageAnimationOrder successor with
      | Done arr => updateSuccessors itemPredecessor rest arr
      | Raised arr => Raised arr
      end
  end.

(** The [CHANGE_ANIMATION_TYPE] case up to its [return]. *)
Definition changeAnimationType (item animationType : option string)
    (pageAnimationOrder : list Entry.t) : run :=
  match entryIndex pageAnimationOrder item with
  | Some i =>
      let arr := alter (Entry.set_animationType animationType) i
                   pageAnimationOrder in
      if negb (Js.truthy animationType) then
        let itemPredecessor := arr !! i ≫= Entry.parent in
        let itemSuccessors :=
          filter (λ e, Entry.parent e = item) arr in
        updateSuccessors itemPredecessor (Js.keys itemSuccessors) arr
      else Done arr
  | None =>
      Done (pageAnimationOrder ++ [Entry.create item None animationType])
  end.

(** [pageAnimationOrder[ entryIndex( item ) ].f = v], guarded by
    [entryIndex( item ) !== -1]. *)
Definition updateEntry (f : Entry.t → Entry.t) (item : option string)
    (pageAnimationOrder : list Entry.t) : list Entry.t :=
  match entryIndex pageAnimationOrder item with
  | Some i => alter f i pageAnimationOrder
  | None => pageAnimationOrder
  end.

(** The [forEach] of a broadcast [PLAY_ANIMATION]: every element is
    replaced by [{ ...entry, status: ... }]. *)
Definition playAll (pageAnimationOrder : list Entry.t) : list Entry.t :=
  (λ entry,
     Entry.set_status
       (Some (if bool_decide (Entry.parent entry = None)
              then playing else prepared)) entry) <$> pageAnimationOrder.

(** The [forEach] of a broadcast [STOP_ANIMATION]. *)
Definition stopAll (pageAnimationOrder : list Entry.t) : list Entry.t :=
  Entry.set_status (Some stopped) <$> pageAnimationOrder.

(** The [case] labels of the reducer's [switch]. *)
Definition actionTypes : list string :=
  [ "ADD_ANIMATION"; "CHANGE_ANIMATION_TYPE"; "CHANGE_ANIMATION_DURATION";
    "CHANGE_ANIMATION_DELAY"; "PLAY_ANIMATION"; "STOP_ANIMATION" ].

Section Reducer.

(** [isValidAnimationPredecessor( { animations: state }, page, item,
    predecessor )] of [./selectors], which is not part of the sources
    at hand: the reducer is parametric in it. *)
Variable isValidAnimationPredecessor :
  state → option string → option string → option string → bool.

(** The [ADD_ANIMATION] case up to its [return]. *)
Definition addAnimation (st : state) (page item predecessor : option string)
    (pageAnimationOrder : list Entry.t) : list Entry.t :=
  let parent :=
    if isValidAnimationPredecessor st page item predecessor
    then predecessor else None in
  match entryIndex pageAnimationOrder item with
  | Some i => alter (Entry.set_parent parent) i pageAnimationOrder
  | None => pageAnimationOrder ++ [Entry.create item parent None]
  end.

(** Reducer handling animation state changes. *)
Definition animations (st : state) (action : Action.t) : outcome state :=
  let page := Action.page action in
  let item := Action.item action in
  let pageAnimationOrder := pageOrder st page in
  let ty := Action.type action in
  if String.eqb ty "ADD_ANIMATION" then
    NewVal (withPage st page
              (addAnimation st page item (Action.predecessor action)
                 pageAnimationOrder))
  else if String.eqb ty "CHANGE_ANIMATION_TYPE" then
    match changeAnimationType item (Action.animationType action)
            pageAnimationOrder with
    | Done arr => NewVal (withPage st page arr)
    | Raised arr => Throws (inPlace st page arr)
    end
  else if String.eqb ty "CHANGE_ANIMATION_DURATION" then
    NewVal (withPage st page
              (updateEntry (Entry.set_duration (Action.duration action))
                 item pageAnimationOrder))
  else if String.eqb ty "CHANGE_ANIMATION_DELAY" then
    NewVal (withPage st page
              (updateEntry (Entry.set_delay (Action.delay action))
                 item pageAnimationOrder))
  else if String.eqb ty "PLAY_ANIMATION" then
    NewVal (withPage st page
              (if Js.truthy item
               then updateEntry (Entry.set_status (Some playing))
                      item pageAnimationOrder
               else playAll pageAnimationOrder))
  else if String.eqb ty "STOP_ANIMATION" then
    NewVal (withPage st page
              (if Js.truthy item
               then updateEntry (Entry.set_status (Some stopped))
                      item pageAnimationOrder
               else stopAll pageAnimationOrder))
  else SameRef.

(** States the store can hold: the initial one, and the one left by
    any call of the reducer on such a state. *)
Inductive reachable : state → Prop :=
| reachable_initial : reachable initial
| reachable_step st action :
    reachable st → reachable (settle st (animations st action)).

End Reducer.

(** The array a run leaves behind, whether it threw or not. *)
Definition arrayOf (r : run) : list Entry.t :=
  match r with
  | Done arr => arr
  | Raised arr => arr
  end.

(** Every parent that is present names another entry of the array. *)
Definition parentsPointToOthers (arr : list Entry.t) : Prop :=
  ∀ i e p, arr !! i = Some e → Entry.parent e = Some p →
    ∃ j e', j ≠ i ∧ arr !! j = Some e' ∧ Entry.id e' = Some p.

(** A parent an entry [item] of [arr] may take: none, or the identifier
    of an entry of [arr] other than [item]. *)
Definition admissible (arr : list Entry.t) (item parent : option string)
    : Prop :=
  parent = None ∨ (parent ≠ item ∧ parent ∈ Entry.id <$> arr).

(** Modelled from the spec: the validity check
    [isValidAnimationPredecessor] of [./selectors], which is not part of
    the sources at hand.  The spec has it enforce that a predecessor
    reference, when present, points to another entry in the same page's
    sequence: the check accepts a predecessor only if it is [undefined]
    or the identifier of an entry of the page other than the item. *)
Definition checksPredecessor
    (isValid : state → option string → option string → option string → bool)
    : Prop :=
  ∀ st page item predecessor,
    isValid st page item predecessor = true →
    admissible (pageOrder st page) item predecessor.

(** Every entry of the array has an admissible parent. *)
Definition wellParented (arr : list Entry.t) : Prop :=
  Forall (λ e, admissible arr (Entry.id e) (Entry.parent e)) arr.

(** [arr'] has the entries of [arr], position by position, with the same
    identifier and with the same parent or none. *)
Definition weakens (arr arr' : list Entry.t) : Prop :=
  Forall2 (λ e e', Entry.id e' = Entry.id e
                   ∧ (Entry.parent e' = Entry.parent e
                      ∨ Entry.parent e' = None)) arr arr'.

(** What a call of the reducer can do to the page's array, as far as
    identifiers and parents go; [ok] is what is known of a parent the
    call assigns. *)
Inductive arrayStep
    (ok : list Entry.t → option string → option string → Prop)
    (arr : list Entry.t) : list Entry.t → Prop :=
| step_weaken arr' : weakens arr arr' → arrayStep ok arr arr'
| step_push item parent ty :
    ok arr item parent →
    arrayStep ok arr (arr ++ [Entry.create item parent ty])
| step_parent i e parent :
    arr !! i = Some e → ok arr (Entry.id e) parent →
    arrayStep ok arr (alter (Entry.set_parent parent) i arr).

End Animations.

Module CurrentPage.

(** The [case] labels of the reducer's [switch]. *)
Definition actionTypes : list string := [ "SET_CURRENT_PAGE" ].

(** Reducer handling changes to the current page; the state is the
    current page or [undefined]. *)
Definition currentPage (st : option string) (action : Action.t)
    : outcome (option string) :=
  if String.eqb (Action.type action) "SET_CURRENT_PAGE"
  then NewVal (Action.page action)
  else SameRef.

End CurrentPage.

Module Blocks.

(** State of the [blocks] slice. *)
Record state : Type := mk {
  order : option (list string);
  isReordering : option bool
}.

(** [{}], the default of the [state] parameter. *)
Definition initial : state := mk None None.

(** The [case] labels of the reducer's [switch]. *)
Definition actionTypes : list string :=
  [ "START_REORDERING"; "STOP_REORDERING"; "MOVE_PAGE"; "RESET_ORDER" ].

(** [newBlockOrder.splice( index, 0, ...newBlockOrder.splice( oldIndex, 1 ) )]
    on the copy [[ ...state.order ]]: the inner call runs first and takes
    the element out, the outer one puts it back at [index]; an absent
    [index] converts to 0. *)
Definition movePage (order : list string) (page : option string)
    (index : option Z) : list string :=
  let oldIndex := Js.indexOf order page in
  let '(newBlockOrder, removed) := Js.splice order oldIndex 1 [] in
  fst (Js.splice newBlockOrder (default 0 index) 0 removed).

(** Reducer handling block order. *)
Definition blocks (st : state) (action : Action.t) : outcome state :=
  let ty := Action.type action in
  if String.eqb ty "START_REORDERING" then
    NewVal (mk (Action.order action) (Some true))
  else if String.eqb ty "STOP_REORDERING" then
    NewVal (mk (order st) (Some false))
  else if String.eqb ty "MOVE_PAGE" then
    match order st with
    | Some o =>
        NewVal (mk (Some (movePage o (Action.page action) (Action.index action)))
                  (isReordering st))
    | None => Throws st   (* [state.order.indexOf] on [undefined] *)
    end
  else if String.eqb ty "RESET_ORDER" then
    NewVal (mk (Action.order action) (Some false))
  else SameRef.

End Blocks.

(** ** The right-click wrapper *)

Module RightClick.

Section Wrapper.

(** [ALLOWED_CHILD_BLOCKS] of [../../constants], which is not part of
    the sources at hand: the wrapper is parametric in the list. *)
Variable ALLOWED_CHILD_BLOCKS : list string.

(** The handler injected by [withDispatch], and what a block's own edit
    component renders to: both belong to the host. *)
Variables handler rendered : Type.

(** The props the wrapped component reads. *)
Record props : Type := mkProps {
  name : string;
  onContextMenu : handler;
  isReordering : bool
}.

(** What the wrapped component returns: [<BlockEdit { ...props } />]
    as it is, or inside [<div onContextMenu={ ... }>]. *)
Inductive element : Type :=
| Plain (blockEdit : rendered)
| Div (handlerAttached : handler) (blockEdit : rendered).

(** Higher-order component that adds right click handler to each
    inner block. *)
Definition withRightClickHandler (BlockEdit : props → rendered)
    (p : props) : element :=
  let isPageBlock := String.eqb "amp/amp-story-page" (name p) in
  if negb isPageBlock && negb (bool_decide (name p ∈ ALLOWED_CHILD_BLOCKS))
  then Plain (BlockEdit p)
  else if isReordering p then Plain (BlockEdit p)
  else Div (onContextMenu p) (BlockEdit p).

(** A block takes the handler when it is the page block or one of the
    allowed child blocks. *)
Definition takesHandler (p : props) : Prop :=
  name p = "amp/amp-story-page" ∨ name p ∈ ALLOWED_CHILD_BLOCKS.

End Wrapper.

Arguments takesHandler ALLOWED_CHILD_BLOCKS {handler} p.
Arguments name {handler} p.
Arguments onContextMenu {handler} p.
Arguments isReordering {handler} p.
Arguments mkProps {handler} name onContextMenu isReordering.
Arguments Plain {handler rendered} blockEdit.
Arguments Div {handler rendered} handlerAttached blockEdit.
Arguments withRightClickHandler ALLOWED_CHILD_BLOCKS {handler rendered}
  BlockEdit p.

End RightClick.

(** ** Sample data *)

Module Sample.

Definition action0 : Action.t :=
  Action.mk "" None None None None None None None None.

Definition act (ty : string) (page item : option string) : Action.t :=
  Action.mk ty page item None None None None None None.

Definition addAnimation (page item predecessor : string) : Action.t :=
  Action.mk "ADD_ANIMATION" (Some page) (Some item) (Some predecessor)
    None None None None None.

(** Modelled from the spec: a stand-in for [isValidAnimationPredecessor]
    of [./selectors], which is not part of the sources at hand.  It accepts
    a predecessor when it is [undefined] or the identifier of an entry of
    the page other than the item. *)
Definition check (st : Animations.state) (page item predecessor : option string)
    : bool :=
  match predecessor with
  | None => true
  | Some _ =>
      bool_decide (predecessor ≠ item) &&
      bool_decide (predecessor ∈ Entry.id <$> Animations.pageOrder st page)
  end.

(** The initial state after adding [a], then [b] with predecessor [a],
    on page [p]. *)
Definition twoAdded : Animations.state :=
  let st1 := settle Animations.initial
               (Animations.animations check Animations.initial
                  (act "ADD_ANIMATION" (Some "p") (Some "a"))) in
  settle st1 (Animations.animations check st1 (addAnimation "p" "b" "a")).

(** Page [p] with the entry [0] and its successor [x]. *)
Definition indexNamed : Animations.state :=
  Animations.mk (Some {[ "p" :=
    [ Entry.create (Some "0") None (Some "fade-in");
      Entry.create (Some "x") (Some "0") (Some "fade-in") ] ]}).

(** Page [p] with the chain a <- b <- c. *)
Definition chain : Animations.state :=
  Animations.mk (Some {[ "p" :=
    [ Entry.create (Some "a") None (Some "fade-in");
      Entry.create (Some "b") (Some "a") (Some "fade-in");
      Entry.create (Some "c") (Some "b") (Some "fade-in") ] ]}).

End Sample.

(** ** Dispatching a run of actions *)

Module Store.

(** The state a reducer leaves after the actions have been dispatched in
    turn, each call settled before the next. *)
Definition dispatchAll {S : Type} (reducer : S → Action.t → outcome S)
    (st : S) (actions : list Action.t) : S :=
  foldl (λ s a, settle s (reducer s a)) st actions.

End Store.

(** ** The context-menu handler *)

Module ContextMenu.

(** [<RightClickMenu clientIds={ ... } clientX={ ... } clientY={ ... } />]. *)
Record menu : Type := mkMenu {
  clientIds : list string;
  clientX : Z;
  clientY : Z
}.

(** What the handler reads and writes of the page: whether
    [document.querySelector( '.edit-post-layout' )] finds an element, the
    elements with id [amp-story-right-click-menu] in document order, each
    with what is rendered in it, and whether [event.preventDefault()] has
    been called. *)
Record page : Type := mk {
  editLayout : bool;
  wrappers : list (option menu);
  defaultPrevented : bool
}.

(** How a call of the handler ends, with the page as it leaves it. *)
Inductive completion : Type :=
| Returned (p : page)
| Threw (p : page).

(** The page a call leaves behind. *)
Definition pageOf (c : completion) : page :=
  match c with
  | Returned p => p
  | Threw p => p
  end.

(** [render( element, document.getElementById( 'amp-story-right-click-menu' ) )]:
    the element is rendered in the first element with the id. *)
Definition render (element : menu) (ws : list (option menu))
    : list (option menu) :=
  match ws with
  | [] => []
  | _ :: rest => Some element :: rest
  end.

(** The [onContextMenu] handler built by [applyWithDispatch];
    [selectedBlockClientIds] and [hasMultiSelection] are what the two
    selectors of the block editor return at the time of the event. *)
Definition onContextMenu (selectedBlockClientIds : list string)
    (hasMultiSelection : bool) (eventX eventY : Z) (p : page) : completion :=
  if bool_decide (length selectedBlockClientIds = 0%nat) then Returned p
  else if hasMultiSelection then Returned p
  else
    let appended :=
      match wrappers p with
      | [] => if editLayout p then Some [None] else None
      | ws => Some ws
      end in
    match appended with
    | None => Threw p   (* [editLayout] is [null]: [editLayout.appendChild] *)
    | Some ws =>
        Returned
          (mk (editLayout p)
              (render (mkMenu selectedBlockClientIds eventX eventY) ws)
              true)
    end.

(** A context-menu event as the handler sees it: the selection at the
    time, and the pointer's coordinates. *)
Record event : Type := mkEvent {
  selected : list string;
  multiSelection : bool;
  pointerX : Z;
  pointerY : Z
}.

(** The page after the handler has run on each event in turn; every event
    comes with its default not yet prevented. *)
Definition handleAll (events : list event) (p : page) : page :=
  foldl (λ q ev,
           pageOf (onContextMenu (selected ev) (multiSelection ev)
                     (pointerX ev) (pointerY ev)
                     (mk (editLayout q) (wrappers q) false)))
        p events.

End ContextMenu.

(** * Properties *)

(** ** Dispatch on the action type *)

Section Dispatch.

Variable isValid :
  Animations.state → option string → option string → option string → bool.

Lemma eqb_of_ne (s t : string) : s ≠ t → String.eqb s t = false.
Proof. intros H. by apply String.eqb_neq. Qed.

Lemma animations_default st a :
  Action.type a ∉ Animations.actionTypes →
  Animations.animations isValid st a = SameRef.
Proof.
  unfold Animations.actionTypes. intros H.
  repeat (apply not_elem_of_cons in H as [? H]).
  unfold Animations.animations. by rewrite !eqb_of_ne.
Qed.

Lemma currentPage_default st a :
  Action.type a ∉ CurrentPage.actionTypes →
  CurrentPage.currentPage st a = SameRef.
Proof.
  unfold CurrentPage.actionTypes. intros H.
  apply not_elem_of_cons in H as [? H].
  unfold CurrentPage.currentPage. by rewrite eqb_of_ne.
Qed.

Lemma blocks_default st a :
  Action.type a ∉ Blocks.actionTypes → Blocks.blocks st a = SameRef.
Proof.
  unfold Blocks.actionTypes. intros H.
  repeat (apply not_elem_of_cons in H as [? H]).
  unfold Blocks.blocks. by rewrite !eqb_of_ne.
Qed.

(** C6. For an action whose type is none of a reducer's [case] labels,
    each of [animations], [currentPage] and [blocks] takes the [default]
    branch: it returns the reference it was given, so the store holds
    the prior state, unchanged. *)
Theorem unrecognized_action_returns_same_reference (a : Action.t) :
  (Action.type a ∉ Animations.actionTypes →
   ∀ st, Animations.animations isValid st a = SameRef
         ∧ settle st (Animations.animations isValid st a) = st)
  ∧ (Action.type a ∉ CurrentPage.actionTypes →
     ∀ st, CurrentPage.currentPage st a = SameRef
           ∧ settle st (CurrentPage.currentPage st a) = st)
  ∧ (Action.type a ∉ Blocks.actionTypes →
     ∀ st, Blocks.blocks st a = SameRef
           ∧ settle st (Blocks.blocks st a) = st).
Proof.
  split_and!; intros H st.
  - by rewrite animations_default.
  - by rewrite currentPage_default.
  - by rewrite blocks_default.
Qed.

End Dispatch.

(** The three reducers on an action of type [@@INIT]. *)
Lemma unrecognized_action_returns_same_reference_witness :
  Animations.animations Sample.check Sample.chain (Sample.act "@@INIT" None None)
    = SameRef
  ∧ CurrentPage.currentPage (Some "p") (Sample.act "@@INIT" None None) = SameRef
  ∧ Blocks.blocks Blocks.initial (Sample.act "@@INIT" None None) = SameRef.
Proof.
  pose proof (unrecognized_action_returns_same_reference Sample.check
                (Sample.act "@@INIT" None None)) as (Ha & Hc & Hb).
  split_and!.
  - apply Ha. compute_done.
  - apply Hc. compute_done.
  - apply Hb. compute_done.
Defined.

(** ** The right-click wrapper *)

Section RightClickWrapper.

Import RightClick.

Variable allowed : list string.
Context {handler rendered : Type}.
Variable BlockEdit : props handler → rendered.

Lemma wrapper_guard (p : props handler) :
  negb (String.eqb "amp/amp-story-page" (name p))
    && negb (bool_decide (name p ∈ allowed)) = true
  ↔ ¬ takesHandler allowed p.
Proof.
  unfold takesHandler.
  rewrite andb_true_iff, !negb_true_iff, bool_decide_eq_false.
  rewrite String.eqb_neq. split.
  - intros [Hp Ha] [Ht | Ht]; [by apply Hp | by apply Ha].
  - intros Hn. split; intros Ht; apply Hn; [by left | by right].
Qed.

Lemma wrapper_plain (p : props handler) :
  ¬ takesHandler allowed p ∨ isReordering p = true →
  withRightClickHandler allowed BlockEdit p = Plain (BlockEdit p).
Proof.
  unfold withRightClickHandler. intros [Hn | Hr].
  - apply wrapper_guard in Hn. by rewrite Hn.
  - rewrite Hr. by destruct (negb _ && negb _).
Qed.

Lemma wrapper_div (p : props handler) :
  takesHandler allowed p → isReordering p = false →
  withRightClickHandler allowed BlockEdit p
    = Div (onContextMenu p) (BlockEdit p).
Proof.
  unfold withRightClickHandler. intros Ht Hr.
  destruct (negb _ && negb _) eqn:Hg.
  - apply wrapper_guard in Hg. contradiction.
  - by rewrite Hr.
Qed.

(** C9. For a block that is neither the page block nor an allowed child
    block, and for every block while reordering is active, the wrapper
    renders the block's own edit component as it is; for the page block
    and the allowed child blocks outside reordering, and only for them,
    it renders that component inside an element carrying the
    context-menu handler. *)
Theorem withRightClickHandler_wraps_only_eligible_blocks (p : props handler) :
  (¬ takesHandler allowed p ∨ isReordering p = true →
   withRightClickHandler allowed BlockEdit p = Plain (BlockEdit p))
  ∧ (takesHandler allowed p ∧ isReordering p = false ↔
     withRightClickHandler allowed BlockEdit p
       = Div (onContextMenu p) (BlockEdit p)).
Proof.
  split; [apply wrapper_plain|].
  split; [intros [??]; by apply wrapper_div|].
  intros Hd.
  destruct (decide (takesHandler allowed p)) as [Ht|Ht];
    destruct (isReordering p) eqn:Hr; try done.
  - rewrite wrapper_plain in Hd; [done | by right; rewrite Hr].
  - rewrite wrapper_plain in Hd; [done | by left].
  - rewrite wrapper_plain in Hd; [done | by left].
Qed.

End RightClickWrapper.

(** A text block while reordering, with ["amp/amp-story-text"] allowed. *)
Lemma withRightClickHandler_wraps_only_eligible_blocks_witness :
  RightClick.withRightClickHandler ["amp/amp-story-text"] RightClick.name
    (RightClick.mkProps "amp/amp-story-text" 7%nat true)
  = RightClick.Plain "amp/amp-story-text".
Proof.
  apply (withRightClickHandler_wraps_only_eligible_blocks
           ["amp/amp-story-text"] RightClick.name
           (RightClick.mkProps "amp/amp-story-text" 7%nat true)).
  right. reflexivity.
Defined.

(** ** Arrays of entries *)

Section FindIndex.

Context {A : Type} (p : A → bool).

Lemma findIndex_None (l : list A) :
  Js.findIndex p l = None ↔ Forall (λ x, p x = false) l.
Proof.
  induction l as [|x l IH]; simpl.
  - split; [constructor | done].
  - destruct (p x) eqn:Hx.
    + split; [done|]. intros H%Forall_cons_1. destruct H; congruence.
    + rewrite fmap_None, IH. split.
      * by constructor.
      * by intros H%Forall_cons_1; destruct H.
Qed.

Lemma findIndex_Some (l : list A) (i : nat) :
  Js.findIndex p l = Some i →
  (∃ x, l !! i = Some x ∧ p x = true)
  ∧ ∀ j y, (j < i)%nat → l !! j = Some y → p y = false.
Proof.
  revert i. induction l as [|x l IH]; intros i; simpl; [done|].
  destruct (p x) eqn:Hx.
  - intros [= <-]. split; [by exists x | intros; lia].
  - intros (k & Hk & ->)%fmap_Some. destruct (IH k Hk) as [Hex Hlt].
    split; [done|]. intros [|j] y Hj; simpl.
    + by intros [= <-].
    + apply Hlt. lia.
Qed.

Lemma findIndex_lt (l : list A) (i : nat) :
  Js.findIndex p l = Some i → (i < length l)%nat.
Proof.
  intros [(x & Hx & _) _]%findIndex_Some. by eapply lookup_lt_Some.
Qed.

End FindIndex.

Lemma findIndex_ext {A : Type} (p q : A → bool) (l k : list A) :
  p <$> l = q <$> k → Js.findIndex p l = Js.findIndex q k.
Proof.
  revert k. induction l as [|x l IH]; intros [|y k]; simpl; try done.
  intros [= Hxy Hlk]. rewrite Hxy, (IH k Hlk). done.
Qed.

Section EntryIndex.

Import Animations.

Implicit Types (arr : list Entry.t) (x : option string).

Lemma entryIndex_None arr x :
  entryIndex arr x = None ↔ x ∉ Entry.id <$> arr.
Proof.
  unfold entryIndex. rewrite findIndex_None, Forall_forall, list_elem_of_fmap.
  split.
  - intros H (e & -> & He). specialize (H e He).
    by rewrite bool_decide_eq_false in H.
  - intros H e He. rewrite bool_decide_eq_false. intros <-. apply H. eauto.
Qed.

Lemma entryIndex_Some arr x i :
  entryIndex arr x = Some i →
  ∃ e, arr !! i = Some e ∧ Entry.id e = x
       ∧ ∀ j e', (j < i)%nat → arr !! j = Some e' → Entry.id e' ≠ x.
Proof.
  intros [(e & He & Hp) Hlt]%findIndex_Some.
  exists e. split_and!; [done | by apply bool_decide_eq_true in Hp |].
  intros j e' Hj He'. specialize (Hlt j e' Hj He').
  by apply bool_decide_eq_false in Hlt.
Qed.

Lemma entryIndex_elem arr x :
  x ∈ Entry.id <$> arr → ∃ i, entryIndex arr x = Some i.
Proof.
  intros Hx. destruct (entryIndex arr x) as [i|] eqn:Hi; [by exists i|].
  by apply entryIndex_None in Hi.
Qed.

(** The index of an identifier depends on the identifiers alone: the
    source's repeated [entryIndex( item )] after an assignment to another
    property finds the same element. *)
Lemma entryIndex_ids arr arr' x :
  Entry.id <$> arr = Entry.id <$> arr' → entryIndex arr x = entryIndex arr' x.
Proof.
  intros H. unfold entryIndex. apply findIndex_ext.
  apply (f_equal (fmap (λ i, bool_decide (i = x)))) in H.
  by rewrite <- !list_fmap_compose in H.
Qed.

Lemma ids_alter (f : Entry.t → Entry.t) arr i :
  (∀ e, Entry.id (f e) = Entry.id e) →
  Entry.id <$> alter f i arr = Entry.id <$> arr.
Proof.
  intros Hf. apply list_eq. intros j.
  rewrite !list_lookup_fmap, list_lookup_alter.
  destruct (decide (i = j)) as [->|]; [|done].
  destruct (arr !! j); simpl; by rewrite ?Hf.
Qed.

Lemma parents_alter (f : Entry.t → Entry.t) arr i :
  (∀ e, Entry.parent (f e) = Entry.parent e) →
  Entry.parent <$> alter f i arr = Entry.parent <$> arr.
Proof.
  intros Hf. apply list_eq. intros j.
  rewrite !list_lookup_fmap, list_lookup_alter.
  destruct (decide (i = j)) as [->|]; [|done].
  destruct (arr !! j); simpl; by rewrite ?Hf.
Qed.

Lemma alter_insert (f : Entry.t → Entry.t) arr i e :
  arr !! i = Some e → alter f i arr = <[i := f e]> arr.
Proof.
  intros He. apply list_eq. intros j.
  rewrite list_lookup_alter. destruct (decide (i = j)) as [->|].
  - rewrite He. simpl. symmetry. apply list_lookup_insert_eq.
    by eapply lookup_lt_Some.
  - by rewrite list_lookup_insert_ne.
Qed.

End EntryIndex.

(** ** The page's array in the state *)

Section Pages.

Import Animations.

Implicit Types (st : state) (page : option string) (arr : list Entry.t).

Lemma orderOf_withPage st page arr :
  orderOf (withPage st page arr) = <[Js.key page := arr]> (orderOf st).
Proof. done. Qed.

Lemma pageOrder_withPage st page arr :
  pageOrder (withPage st page arr) page = arr.
Proof. unfold pageOrder. by rewrite orderOf_withPage, lookup_insert_eq. Qed.

Lemma pageOrder_withPage_ne st page page' arr :
  Js.key page ≠ Js.key page' →
  pageOrder (withPage st page arr) page' = pageOrder st page'.
Proof.
  intros H. unfold pageOrder. by rewrite orderOf_withPage, lookup_insert_ne.
Qed.

Lemma pageOrder_inPlace st page arr :
  pageOrder (inPlace st page arr) page = arr
  ∨ (inPlace st page arr = st ∧ pageOrder st page = []).
Proof.
  unfold inPlace, pageOrder at 2.
  destruct (orderOf st !! Js.key page) eqn:H.
  - left. apply pageOrder_withPage.
  - by right.
Qed.

Lemma pageOrder_inPlace_ne st page page' arr :
  Js.key page ≠ Js.key page' →
  pageOrder (inPlace st page arr) page' = pageOrder st page'.
Proof.
  intros H. unfold inPlace.
  destruct (orderOf st !! Js.key page); [|done].
  by apply pageOrder_withPage_ne.
Qed.

End Pages.

(** ** The cases of the animations reducer *)

Section Cases.

Import Animations.

Variable isValid :
  state → option string → option string → option string → bool.

Implicit Types (st : state) (a : Action.t) (arr : list Entry.t).

Lemma animations_ADD st a :
  Action.type a = "ADD_ANIMATION" →
  animations isValid st a
  = NewVal (withPage st (Action.page a)
              (addAnimation isValid st (Action.page a) (Action.item a)
                 (Action.predecessor a) (pageOrder st (Action.page a)))).
Proof. intros H. unfold animations. by rewrite H. Qed.

Lemma animations_TYPE st a :
  Action.type a = "CHANGE_ANIMATION_TYPE" →
  animations isValid st a
  = match changeAnimationType (Action.item a) (Action.animationType a)
            (pageOrder st (Action.page a)) with
    | Done arr => NewVal (withPage st (Action.page a) arr)
    | Raised arr => Throws (inPlace st (Action.page a) arr)
    end.
Proof. intros H. unfold animations. by rewrite H. Qed.

Lemma animations_DURATION st a :
  Action.type a = "CHANGE_ANIMATION_DURATION" →
  animations isValid st a
  = NewVal (withPage st (Action.page a)
              (updateEntry (Entry.set_duration (Action.duration a))
                 (Action.item a) (pageOrder st (Action.page a)))).
Proof. intros H. unfold animations. by rewrite H. Qed.

Lemma animations_DELAY st a :
  Action.type a = "CHANGE_ANIMATION_DELAY" →
  animations isValid st a
  = NewVal (withPage st (Action.page a)
              (updateEntry (Entry.set_delay (Action.delay a))
                 (Action.item a) (pageOrder st (Action.page a)))).
Proof. intros H. unfold animations. by rewrite H. Qed.

Lemma animations_PLAY st a :
  Action.type a = "PLAY_ANIMATION" →
  animations isValid st a
  = NewVal (withPage st (Action.page a)
              (if Js.truthy (Action.item a)
               then updateEntry (Entry.set_status (Some playing))
                      (Action.item a) (pageOrder st (Action.page a))
               else playAll (pageOrder st (Action.page a)))).
Proof. intros H. unfold animations. by rewrite H. Qed.

Lemma animations_STOP st a :
  Action.type a = "STOP_ANIMATION" →
  animations isValid st a
  = NewVal (withPage st (Action.page a)
              (if Js.truthy (Action.item a)
               then updateEntry (Entry.set_status (Some stopped))
                      (Action.item a) (pageOrder st (Action.page a))
               else stopAll (pageOrder st (Action.page a)))).
Proof. intros H. unfold animations. by rewrite H. Qed.

(** The reducer's [switch], case by case. *)
Lemma animations_cases st a :
  Action.type a = "ADD_ANIMATION" ∨ Action.type a = "CHANGE_ANIMATION_TYPE"
  ∨ Action.type a = "CHANGE_ANIMATION_DURATION"
  ∨ Action.type a = "CHANGE_ANIMATION_DELAY"
  ∨ Action.type a = "PLAY_ANIMATION" ∨ Action.type a = "STOP_ANIMATION"
  ∨ animations isValid st a = SameRef.
Proof.
  destruct (decide (Action.type a ∈ actionTypes)) as [H|H].
  - unfold actionTypes in H. rewrite !elem_of_cons in H.
    rewrite elem_of_nil in H. tauto.
  - do 6 right. by apply animations_default.
Qed.

Lemma updateEntry_present f item arr :
  item ∈ Entry.id <$> arr →
  ∃ i e, entryIndex arr item = Some i ∧ arr !! i = Some e
         ∧ Entry.id e = item ∧ updateEntry f item arr = <[i := f e]> arr.
Proof.
  intros [i Hi]%entryIndex_elem.
  destruct (entryIndex_Some _ _ _ Hi) as (e & He & Hid & _).
  exists i, e. split_and!; try done.
  unfold updateEntry. rewrite Hi. by apply alter_insert.
Qed.

Lemma updateEntry_absent f item arr :
  item ∉ Entry.id <$> arr → updateEntry f item arr = arr.
Proof.
  intros H%entryIndex_None. unfold updateEntry. by rewrite H.
Qed.



(** C10. A [CHANGE_ANIMATION_DURATION], [CHANGE_ANIMATION_DELAY],
    targeted [PLAY_ANIMATION] or targeted [STOP_ANIMATION] action whose
    item is an identifier of the page's sequence replaces the first
    entry carrying it by that entry with the one field set (duration,
    delay, or status); the entry keeps its identifier and parent, every
    other entry of the page is as before, and so is every other page. *)
Theorem targeted_update_changes_one_field st a (f : Entry.t → Entry.t) :
  Action.item a ∈ Entry.id <$> pageOrder st (Action.page a) →
  (Action.type a = "CHANGE_ANIMATION_DURATION"
     ∧ f = Entry.set_duration (Action.duration a))
  ∨ (Action.type a = "CHANGE_ANIMATION_DELAY"
     ∧ f = Entry.set_delay (Action.delay a))
  ∨ (Action.type a = "PLAY_ANIMATION" ∧ Js.truthy (Action.item a) = true
     ∧ f = Entry.set_status (Some playing))
  ∨ (Action.type a = "STOP_ANIMATION" ∧ Js.truthy (Action.item a) = true
     ∧ f = Entry.set_status (Some stopped)) →
  ∃ st' i e,
    animations isValid st a = NewVal st'
    ∧ pageOrder st (Action.page a) !! i = Some e
    ∧ Entry.id e = Action.item a
    ∧ pageOrder st' (Action.page a) = <[i := f e]> (pageOrder st (Action.page a))
    ∧ Entry.id (f e) = Entry.id e
    ∧ Entry.parent (f e) = Entry.parent e
    ∧ Entry.animationType (f e) = Entry.animationType e
    ∧ ∀ k, k ≠ Js.key (Action.page a) → orderOf st' !! k = orderOf st !! k.
Proof.
  intros Hin Hcase.
  destruct (updateEntry_present f _ _ Hin) as (i & e & _ & He & Hid & Hup).
  assert (∃ st', animations isValid st a = NewVal st'
            ∧ st' = withPage st (Action.page a)
                      (updateEntry f (Action.item a)
                         (pageOrder st (Action.page a)))
            ∧ Entry.id (f e) = Entry.id e
            ∧ Entry.parent (f e) = Entry.parent e
            ∧ Entry.animationType (f e) = Entry.animationType e)
    as (st' & Hst' & -> & Hf).
  { destruct Hcase as [[Hty ->] | [[Hty ->] | [(Hty & Ht & ->) | (Hty & Ht & ->)]]].
    - rewrite (animations_DURATION _ _ Hty). by eexists.
    - rewrite (animations_DELAY _ _ Hty). by eexists.
    - rewrite (animations_PLAY _ _ Hty), Ht. by eexists.
    - rewrite (animations_STOP _ _ Hty), Ht. by eexists. }
  eexists _, i, e. split_and!; try done; try apply Hf.
  - by rewrite pageOrder_withPage.
  - intros k Hk. by rewrite orderOf_withPage, lookup_insert_ne.
Qed.


End Cases.

(** ** What a call does to identifiers and parents *)

Section Steps.

Import Animations.

Implicit Types (st : state) (a : Action.t) (arr : list Entry.t).

Lemma weakens_refl arr : weakens arr arr.
Proof. unfold weakens. induction arr; constructor; auto. Qed.

Lemma weakens_trans arr1 arr2 arr3 :
  weakens arr1 arr2 → weakens arr2 arr3 → weakens arr1 arr3.
Proof.
  unfold weakens. apply Forall2_trans.
  intros x y z [Hi1 Hp1] [Hi2 Hp2]. split; [congruence|].
  destruct Hp2 as [Hp2|Hp2]; [|by right].
  destruct Hp1 as [Hp1|Hp1]; [left | right]; congruence.
Qed.

Lemma weakens_alter (f : Entry.t → Entry.t) arr i :
  (∀ e, Entry.id (f e) = Entry.id e) →
  (∀ e, Entry.parent (f e) = Entry.parent e ∨ Entry.parent (f e) = None) →
  weakens arr (alter f i arr).
Proof.
  intros Hid Hp. apply Forall2_alter_r; [apply weakens_refl|].
  intros x y _ _ [Hxy Hpar]. rewrite Hid. split; [done|].
  destruct (Hp y) as [-> | ->]; [done | by right].
Qed.

Lemma weakens_fmap (f : Entry.t → Entry.t) arr :
  (∀ e, Entry.id (f e) = Entry.id e) →
  (∀ e, Entry.parent (f e) = Entry.parent e) →
  weakens arr (f <$> arr).
Proof.
  intros Hid Hp. unfold weakens. apply Forall2_fmap_r.
  induction arr; constructor; simpl; auto.
Qed.

Lemma weakens_ids arr arr' :
  weakens arr arr' → Entry.id <$> arr' = Entry.id <$> arr.
Proof.
  induction 1 as [|x y l k [Hid _] _ IH]; [done|].
  rewrite !fmap_cons. congruence.
Qed.

Lemma updateSuccessors_weakens itemPredecessor successors arr :
  weakens arr (arrayOf (updateSuccessors itemPredecessor successors arr)).
Proof.
  revert arr. induction successors as [|k ks IH]; intros arr; simpl.
  - apply weakens_refl.
  - unfold reparent. destruct (entryIndex arr (Some k)) as [i|]; [|apply IH].
    destruct itemPredecessor; simpl; [|apply weakens_refl].
    eapply weakens_trans; [|apply IH].
    apply weakens_alter; [done | by right].
Qed.

Lemma changeAnimationType_step ok item ty arr :
  (∀ arr' i, ok arr' i None) →
  arrayStep ok arr (arrayOf (changeAnimationType item ty arr)).
Proof.
  intros Hok. unfold changeAnimationType.
  destruct (entryIndex arr item) as [i|]; [|by apply step_push].
  apply step_weaken.
  assert (weakens arr (alter (Entry.set_animationType ty) i arr)) as Hw
    by (apply weakens_alter; [done | by left]).
  destruct (negb (Js.truthy ty)); [|done].
  eapply weakens_trans; [exact Hw | apply updateSuccessors_weakens].
Qed.

Lemma updateEntry_weakens (f : Entry.t → Entry.t) item arr :
  (∀ e, Entry.id (f e) = Entry.id e) →
  (∀ e, Entry.parent (f e) = Entry.parent e) →
  weakens arr (updateEntry f item arr).
Proof.
  intros Hid Hp. unfold updateEntry.
  destruct (entryIndex arr item); [|apply weakens_refl].
  apply weakens_alter; [done | by left].
Qed.

Lemma addAnimation_step ok isValid st page item predecessor :
  (∀ arr i, ok arr i None) →
  (isValid st page item predecessor = true →
   ok (pageOrder st page) item predecessor) →
  arrayStep ok (pageOrder st page)
    (addAnimation isValid st page item predecessor (pageOrder st page)).
Proof.
  intros Hnone Hvalid. unfold addAnimation.
  assert (ok (pageOrder st page) item
            (if isValid st page item predecessor then predecessor else None))
    as Hok by (destruct (isValid st page item predecessor); auto).
  destruct (entryIndex (pageOrder st page) item) as [i|] eqn:Hi.
  - destruct (entryIndex_Some _ _ _ Hi) as (e & He & Hid & _).
    eapply step_parent; [done | by rewrite Hid].
  - by apply step_push.
Qed.

(** Every call either leaves the state as it is, or changes the array
    of the action's page by one [arrayStep] and no other page. *)
Lemma animations_step ok isValid st a :
  (∀ arr i, ok arr i None) →
  (∀ st page item predecessor,
      isValid st page item predecessor = true →
      ok (pageOrder st page) item predecessor) →
  settle st (animations isValid st a) = st
  ∨ (arrayStep ok (pageOrder st (Action.page a))
       (pageOrder (settle st (animations isValid st a)) (Action.page a))
     ∧ ∀ page', Js.key (Action.page a) ≠ Js.key page' →
         pageOrder (settle st (animations isValid st a)) page'
         = pageOrder st page').
Proof.
  intros Hnone Hvalid.
  destruct (animations_cases isValid st a)
    as [H | [H | [H | [H | [H | [H | H]]]]]].
  - right. rewrite (animations_ADD _ _ _ H). simpl.
    split; [|intros; by apply pageOrder_withPage_ne].
    rewrite pageOrder_withPage. apply addAnimation_step; auto.
  - rewrite (animations_TYPE _ _ _ H).
    pose proof (changeAnimationType_step ok (Action.item a)
                  (Action.animationType a) (pageOrder st (Action.page a))
                  Hnone) as Hstep.
    destruct (changeAnimationType _ _ _) as [arr|arr]; simpl in *.
    + right. split; [|intros; by apply pageOrder_withPage_ne].
      by rewrite pageOrder_withPage.
    + destruct (pageOrder_inPlace st (Action.page a) arr) as [Hp | [Hp _]];
        [right | by left].
      split; [by rewrite Hp | intros; by apply pageOrder_inPlace_ne].
  - right. rewrite (animations_DURATION _ _ _ H). simpl.
    split; [|intros; by apply pageOrder_withPage_ne].
    rewrite pageOrder_withPage. apply step_weaken.
    by apply updateEntry_weakens.
  - right. rewrite (animations_DELAY _ _ _ H). simpl.
    split; [|intros; by apply pageOrder_withPage_ne].
    rewrite pageOrder_withPage. apply step_weaken.
    by apply updateEntry_weakens.
  - right. rewrite (animations_PLAY _ _ _ H). simpl.
    split; [|intros; by apply pageOrder_withPage_ne].
    rewrite pageOrder_withPage. apply step_weaken.
    destruct (Js.truthy (Action.item a)).
    + by apply updateEntry_weakens.
    + by apply weakens_fmap.
  - right. rewrite (animations_STOP _ _ _ H). simpl.
    split; [|intros; by apply pageOrder_withPage_ne].
    rewrite pageOrder_withPage. apply step_weaken.
    destruct (Js.truthy (Action.item a)).
    + by apply updateEntry_weakens.
    + by apply weakens_fmap.
  - left. by rewrite H.
Qed.

Lemma arrayStep_ids ok arr arr' :
  arrayStep ok arr arr' →
  Entry.id <$> arr `prefix_of` Entry.id <$> arr'.
Proof.
  intros [arr2 Hw | item parent ty _ | i e parent _ _].
  - by rewrite (weakens_ids _ _ Hw).
  - rewrite fmap_app. by apply prefix_app_r.
  - by rewrite ids_alter.
Qed.

End Steps.

(** ** Entries are never removed, and parents stay meaningful *)

Section Invariants.

Import Animations.

Variable isValid :
  state → option string → option string → option string → bool.

Implicit Types (st : state) (a : Action.t) (arr : list Entry.t).

Lemma pageOrder_key st page page' :
  Js.key page = Js.key page' → pageOrder st page = pageOrder st page'.
Proof. unfold pageOrder. by intros ->. Qed.

(** The identifiers of a page before a call are an initial segment of
    those after it. *)
Lemma animations_ids_prefix st a page :
  Entry.id <$> pageOrder st page
  `prefix_of` Entry.id <$> pageOrder (settle st (animations isValid st a)) page.
Proof.
  destruct (animations_step (λ _ _ _, True) isValid st a) as [-> | [Hs Ho]];
    [done | done | done |].
  destruct (decide (Js.key (Action.page a) = Js.key page)) as [Hk | Hk].
  - rewrite <- !(pageOrder_key _ _ _ Hk). by eapply arrayStep_ids.
  - by rewrite Ho.
Qed.

(** C8. No call of the reducer removes an entry: an identifier found on
    a page before the call, whatever the action and however the call
    ends, is found on that page after it. *)
Theorem animations_never_removes_an_entry st a page (x : option string) :
  x ∈ Entry.id <$> pageOrder st page →
  x ∈ Entry.id <$> pageOrder (settle st (animations isValid st a)) page.
Proof.
  intros Hx. destruct (animations_ids_prefix st a page) as [k ->].
  apply elem_of_app. by left.
Qed.

Lemma admissible_mono arr arr' item parent :
  (∀ x, x ∈ Entry.id <$> arr → x ∈ Entry.id <$> arr') →
  admissible arr item parent → admissible arr' item parent.
Proof. intros Hsub [-> | [Hne Hin]]; [by left | right; auto]. Qed.

Lemma wellParented_step arr arr' :
  wellParented arr → arrayStep admissible arr arr' → wellParented arr'.
Proof.
  unfold wellParented. intros Hwp Hstep.
  pose proof (arrayStep_ids _ _ _ Hstep) as [k Hk].
  assert (Hsub : ∀ x, x ∈ Entry.id <$> arr → x ∈ Entry.id <$> arr')
    by (intros x Hx; rewrite Hk; apply elem_of_app; by left).
  destruct Hstep as [arr2 Hw | item parent ty Hok | i e parent He Hok].
  - apply Forall_lookup. intros j e' He'.
    destruct (Forall2_lookup_r _ _ _ _ _ Hw He') as (e & He & Hid & Hp).
    pose proof (Forall_lookup_1 _ _ _ _ Hwp He) as Hadm.
    rewrite Hid. destruct Hp as [-> | ->]; [|by left].
    by eapply admissible_mono.
  - apply Forall_app. split.
    + eapply Forall_impl; [exact Hwp|]. intros e He.
      by eapply admissible_mono.
    + constructor; [|constructor]. simpl. by eapply admissible_mono.
  - apply Forall_lookup. intros j e' He'.
    rewrite list_lookup_alter in He'.
    destruct (decide (i = j)) as [<- | Hij].
    + rewrite He in He'. injection He' as <-. simpl.
      by eapply admissible_mono.
    + pose proof (Forall_lookup_1 _ _ _ _ Hwp He') as Hadm.
      by eapply admissible_mono.
Qed.

Lemma wellParented_points arr :
  wellParented arr → parentsPointToOthers arr.
Proof.
  intros Hwp i e p He Hp.
  pose proof (Forall_lookup_1 _ _ _ _ Hwp He) as [Hn | [Hne Hin]];
    [congruence|].
  rewrite Hp in Hne, Hin.
  apply list_elem_of_fmap in Hin as (e' & Hid & [j Hj]%list_elem_of_lookup).
  exists j, e'. split_and!; [|done|done].
  intros ->. rewrite He in Hj. injection Hj as <-. congruence.
Qed.

Hypothesis isValid_checks : checksPredecessor isValid.

Lemma reachable_wellParented st :
  reachable isValid st → ∀ page, wellParented (pageOrder st page).
Proof.
  induction 1 as [|st a _ IH]; intros page.
  - unfold pageOrder, orderOf, wellParented. simpl.
    rewrite lookup_empty. constructor.
  - destruct (animations_step admissible isValid st a) as [-> | [Hs Ho]];
      [by left | exact isValid_checks | done |].
    destruct (decide (Js.key (Action.page a) = Js.key page)) as [Hk | Hk].
    + rewrite <- (pageOrder_key _ _ _ Hk).
      eapply wellParented_step; [apply IH | exact Hs].
    + by rewrite Ho.
Qed.


End Invariants.

(** ** Moving a page in the block order *)

Section MovePage.

Import Blocks.

Implicit Types (o : list string) (p : string).

(** [indexOf] finds the first occurrence. *)
Lemma indexOf_elem o p :
  p ∈ o →
  ∃ pre suf, o = pre ++ (p :: suf) ∧ (p ∉ pre)
             ∧ Js.indexOf o (Some p) = Z.of_nat (length pre).
Proof.
  induction o as [|y o IH]; [by intros ?%elem_of_nil|].
  intros Hin. simpl. destruct (decide (y = p)) as [-> | Hne].
  - exists [], o. rewrite bool_decide_eq_true_2 by done.
    split_and!; [done | apply not_elem_of_nil | done].
  - apply elem_of_cons in Hin as [-> | Hin]; [done|].
    destruct (IH Hin) as (pre & suf & -> & Hpre & Hidx).
    exists (y :: pre), suf. rewrite bool_decide_eq_false_2 by congruence.
    rewrite Hidx, bool_decide_eq_false_2 by lia.
    split_and!; [done | | simpl; lia].
    apply not_elem_of_cons. split; [congruence | done].
Qed.

Lemma actualStart_le len start : (Js.actualStart len start ≤ len)%nat.
Proof. unfold Js.actualStart. case_bool_decide; lia. Qed.

(** Taking the element at a position of the array out. *)
Lemma splice_take_out (pre suf : list string) p :
  Js.splice (pre ++ (p :: suf)) (Z.of_nat (length pre)) 1 []
  = (pre ++ suf, [p]).
Proof.
  unfold Js.splice, Js.actualStart. rewrite bool_decide_eq_false_2 by lia.
  rewrite length_app. simpl.
  replace (Z.to_nat (Z.min (Z.of_nat (length pre))
                       (Z.of_nat (length pre + S (length suf)))))
    with (length pre) by lia.
  replace (Z.to_nat (Z.min (Z.max 1 0)
             (Z.of_nat (length pre + S (length suf) - length pre))))
    with 1%nat by lia.
  rewrite take_app_length, drop_app_length. simpl.
  replace (length pre + 1)%nat with (length (pre ++ [p]))
    by (rewrite length_app; simpl; lia).
  by rewrite (cons_middle p pre suf), app_assoc, drop_app_length.
Qed.

(** Putting elements in at a position, removing none. *)
Lemma splice_put_in (l items : list string) start :
  fst (Js.splice l start 0 items)
  = take (Js.actualStart (length l) start) l
      ++ items ++ drop (Js.actualStart (length l) start) l.
Proof.
  unfold Js.splice. simpl.
  replace (Z.to_nat (Z.min (Z.max 0 0) _)) with 0%nat by lia.
  by rewrite Nat.add_0_r.
Qed.

Lemma movePage_elem (pre suf : list string) p index :
  p ∉ pre →
  movePage (pre ++ (p :: suf)) (Some p) index
  = take (Js.actualStart (length (pre ++ suf)) (default 0 index)) (pre ++ suf)
      ++ (p :: drop (Js.actualStart (length (pre ++ suf)) (default 0 index))
                 (pre ++ suf)).
Proof.
  intros Hpre. unfold movePage.
  destruct (indexOf_elem (pre ++ (p :: suf)) p) as (pre' & suf' & Heq & Hpre' & ->).
  { apply elem_of_app. right. by left. }
  assert (pre' = pre ∧ suf' = suf) as [-> ->].
  { clear -Heq Hpre Hpre'. revert pre' Heq Hpre'.
    induction pre as [|x pre IH]; intros [|x' pre'] Heq Hpre'; simpl in *.
    - by injection Heq as ->.
    - injection Heq as <- _. exfalso. apply Hpre'. by left.
    - injection Heq as -> _. exfalso. apply Hpre. by left.
    - injection Heq as <- Heq.
      apply not_elem_of_cons in Hpre as [_ Hpre].
      apply not_elem_of_cons in Hpre' as [_ Hpre'].
      by destruct (IH Hpre pre' Heq Hpre') as [-> ->]. }
  rewrite splice_take_out. by rewrite splice_put_in.
Qed.

(** C4. A [MOVE_PAGE] action on a state whose order contains the page
    returns an order of the same length with the same elements (a
    permutation of the old one), obtained by taking the first occurrence
    of the page out and putting it back at the position the action's
    index designates in what remains: the index itself when it is within
    what remains, the end when it is beyond, counted back from the end
    when it is negative, and 0 when the action has none.  The other
    elements keep their relative order. *)
Theorem move_page_relocates_one_element st a o p :
  Action.type a = "MOVE_PAGE" →
  order st = Some o →
  Action.page a = Some p →
  p ∈ o →
  ∃ o', blocks st a = NewVal (mk (Some o') (isReordering st))
    ∧ length o' = length o
    ∧ o' ≡ₚ o
    ∧ (∀ x, x ∈ o' ↔ x ∈ o)
    ∧ ∃ pre suf j,
        o = pre ++ (p :: suf) ∧ (p ∉ pre)
        ∧ j = Js.actualStart (length (pre ++ suf))
                (default 0 (Action.index a))
        ∧ (0 ≤ default 0 (Action.index a) →
           j = Z.to_nat (Z.min (default 0 (Action.index a))
                           (Z.of_nat (length o) - 1)))
        ∧ (default 0 (Action.index a) < 0 →
           j = Z.to_nat (Z.max (Z.of_nat (length o) - 1
                                + default 0 (Action.index a)) 0))
        ∧ (j ≤ length (pre ++ suf))%nat
        ∧ o' = take j (pre ++ suf) ++ (p :: drop j (pre ++ suf))
        ∧ o' !! j = Some p.
Proof.
  intros Hty Ho Hp Hin.
  destruct (indexOf_elem o p Hin) as (pre & suf & -> & Hpre & _).
  set (j := Js.actualStart (length (pre ++ suf)) (default 0 (Action.index a))).
  assert (Hj : (j ≤ length (pre ++ suf))%nat) by apply actualStart_le.
  assert (Hperm : take j (pre ++ suf) ++ (p :: drop j (pre ++ suf))
                  ≡ₚ pre ++ (p :: suf)).
  { rewrite <- !Permutation_middle. by rewrite take_drop. }
  assert (Hlen : length (pre ++ (p :: suf)) = S (length (pre ++ suf)))
    by (rewrite !length_app; simpl; lia).
  exists (take j (pre ++ suf) ++ (p :: drop j (pre ++ suf))). split_and!.
  - unfold blocks. rewrite Hty, Ho, Hp. simpl.
    by rewrite movePage_elem.
  - by rewrite Hperm.
  - done.
  - intros x. by rewrite Hperm.
  - exists pre, suf, j. split_and!; try done.
    + intros Hi. unfold j, Js.actualStart.
      rewrite bool_decide_eq_false_2 by lia. lia.
    + intros Hi. unfold j, Js.actualStart.
      rewrite bool_decide_eq_true_2 by lia. lia.
    + rewrite lookup_app_r by (rewrite length_take; lia).
      rewrite length_take.
      by replace (j - j `min` length (pre ++ suf))%nat with 0%nat by lia.
Qed.

End MovePage.

(** Moving page ["b"] of the order a, b, c, d to index 3. *)
Lemma move_page_relocates_one_element_witness :
  ∃ o', Blocks.blocks (Blocks.mk (Some ["a"; "b"; "c"; "d"]) None)
          (Action.mk "MOVE_PAGE" (Some "b") None None None None None None (Some 3))
        = NewVal (Blocks.mk (Some o') None)
    ∧ length o' = 4%nat
    ∧ o' !! 3%nat = Some "b".
Proof.
  destruct (move_page_relocates_one_element
              (Blocks.mk (Some ["a"; "b"; "c"; "d"]) None)
              (Action.mk "MOVE_PAGE" (Some "b") None None None None None None
                 (Some 3))
              ["a"; "b"; "c"; "d"] "b")
    as (o' & Heq & Hlen & _ & _ & pre & suf & j & _ & _ & _ & Hj & _ & _ & _
        & Hat);
    [reflexivity | reflexivity | reflexivity | |].
  - compute_done.
  - exists o'. split_and!; [exact Heq | exact Hlen |].
    rewrite <- Hat. f_equal. symmetry. apply Hj. simpl. lia.
Defined.

(** ** Disabling an animation *)

Section Disabling.

Import Animations.

Implicit Types (arr : list Entry.t).

(** The loop over the successors' keys changes nothing when no entry of
    the page has a key as its identifier. *)
Lemma updateSuccessors_no_match itemPredecessor successors arr :
  Forall (λ k, Some k ∉ Entry.id <$> arr) successors →
  updateSuccessors itemPredecessor successors arr = Done arr.
Proof.
  induction 1 as [|k ks Hk _ IH]; simpl; [done|].
  unfold reparent. apply entryIndex_None in Hk. by rewrite Hk.
Qed.

(** Disabling the animation of an entry, on a page where no identifier
    is the decimal string of an array index, sets the entry's animation
    type and leaves every parent as it was. *)
Lemma disable_keeps_parents item ty arr i :
  Js.truthy ty = false →
  entryIndex arr item = Some i →
  (∀ k : nat, Some (pretty k) ∉ Entry.id <$> arr) →
  changeAnimationType item ty arr
  = Done (alter (Entry.set_animationType ty) i arr).
Proof.
  intros Hty Hi Hids. unfold changeAnimationType. rewrite Hi, Hty. simpl.
  apply updateSuccessors_no_match. unfold Js.keys.
  apply Forall_fmap, Forall_forall. intros k _. simpl.
  by rewrite ids_alter.
Qed.

End Disabling.

(** C1, on the code. On the chain a <- b <- c of page [p], disabling the
    animation of [b] returns a state in which [c] still has parent [b]:
    the loop runs over the key ["0"] of the array of successors, which is
    no identifier of the page, and re-parents nothing. *)
Theorem disabling_leaves_successor_parent_unchanged
    (isValid : Animations.state → option string → option string →
               option string → bool) :
  ∃ st',
    Animations.animations isValid Sample.chain
      (Sample.act "CHANGE_ANIMATION_TYPE" (Some "p") (Some "b")) = NewVal st'
    ∧ Animations.pageOrder st' (Some "p")
      = [ Entry.create (Some "a") None (Some "fade-in");
          Entry.create (Some "b") (Some "a") None;
          Entry.create (Some "c") (Some "b") (Some "fade-in") ].
Proof. eexists. split; [reflexivity | by vm_compute]. Qed.

(** Where an identifier is the string of an index, the same loop reads
    [.parent] of the item's own parent: with the item at the root that is
    [undefined], and the call throws. *)
Example disabling_root_with_index_named_entry_throws
    (isValid : Animations.state → option string → option string →
               option string → bool) :
  Animations.animations isValid Sample.indexNamed
    (Sample.act "CHANGE_ANIMATION_TYPE" (Some "p") (Some "0"))
  = Throws (Animations.mk (Some {[ "p" :=
      [ Entry.create (Some "0") None None;
        Entry.create (Some "x") (Some "0") (Some "fade-in") ] ]})).
Proof. by vm_compute. Qed.

(** ** Instances on the sample data *)

(** The sample check accepts only admissible predecessors. *)
Lemma sample_check_checks : Animations.checksPredecessor Sample.check.
Proof.
  intros st page item [p|]; [|by left]. unfold Sample.check.
  intros [Hne Hin]%andb_true_iff. right.
  split; [by apply bool_decide_eq_true in Hne | by apply bool_decide_eq_true in Hin].
Qed.



(** Setting the duration of [b] on the chain of page [p]. *)
Lemma targeted_update_changes_one_field_witness :
  ∃ st' i e,
    Animations.animations Sample.check Sample.chain
      (Action.mk "CHANGE_ANIMATION_DURATION" (Some "p") (Some "b") None None
         (Some 500) None None None) = NewVal st'
    ∧ Animations.pageOrder Sample.chain (Some "p") !! i = Some e
    ∧ Entry.id e = Some "b"
    ∧ Animations.pageOrder st' (Some "p")
      = <[i := Entry.set_duration (Some 500) e]>
          (Animations.pageOrder Sample.chain (Some "p")).
Proof.
  destruct (targeted_update_changes_one_field Sample.check Sample.chain
              (Action.mk "CHANGE_ANIMATION_DURATION" (Some "p") (Some "b")
                 None None (Some 500) None None None)
              (Entry.set_duration (Some 500)))
    as (st' & i & e & Hret & He & Hid & Hnew & _).
  - compute_done.
  - left. split; reflexivity.
  - exists st', i, e. split_and!; [exact Hret | exact He | exact Hid | exact Hnew].
Defined.



(** Entry [a] of the chain survives the disabling of [b]. *)
Lemma animations_never_removes_an_entry_witness :
  Some "a" ∈ Entry.id <$> Animations.pageOrder
      (settle Sample.chain
         (Animations.animations Sample.check Sample.chain
            (Sample.act "CHANGE_ANIMATION_TYPE" (Some "p") (Some "b"))))
      (Some "p").
Proof.
  apply (animations_never_removes_an_entry Sample.check Sample.chain
           (Sample.act "CHANGE_ANIMATION_TYPE" (Some "p") (Some "b"))
           (Some "p") (Some "a")).
  compute_done.
Defined.


(** * Further properties *)

(** ** The animations reducer: pages and identifiers *)

Section AnimationsPages.

Import Animations.

Variable isValid :
  state → option string → option string → option string → bool.

Implicit Types (st : state) (a : Action.t) (arr : list Entry.t).

Lemma orderOf_inPlace_ne st page arr k :
  k ≠ Js.key page → orderOf (inPlace st page arr) !! k = orderOf st !! k.
Proof.
  intros Hk. unfold inPlace. destruct (orderOf st !! Js.key page); [|done].
  by rewrite orderOf_withPage, lookup_insert_ne.
Qed.

(** X1. Whatever the action and however the call ends, the sequence of
    every page other than the action's page is what it was: a call
    touches the array of one page only. *)
Theorem animations_touches_only_its_page st a (k : string) :
  k ≠ Js.key (Action.page a) →
  orderOf (settle st (animations isValid st a)) !! k = orderOf st !! k.
Proof.
  intros Hk.
  destruct (animations_cases isValid st a)
    as [H | [H | [H | [H | [H | [H | H]]]]]].
  - rewrite (animations_ADD _ _ _ H). simpl.
    by rewrite orderOf_withPage, lookup_insert_ne.
  - rewrite (animations_TYPE _ _ _ H).
    destruct (changeAnimationType _ _ _); simpl.
    + by rewrite orderOf_withPage, lookup_insert_ne.
    + by apply orderOf_inPlace_ne.
  - rewrite (animations_DURATION _ _ _ H). simpl.
    by rewrite orderOf_withPage, lookup_insert_ne.
  - rewrite (animations_DELAY _ _ _ H). simpl.
    by rewrite orderOf_withPage, lookup_insert_ne.
  - rewrite (animations_PLAY _ _ _ H). simpl.
    by rewrite orderOf_withPage, lookup_insert_ne.
  - rewrite (animations_STOP _ _ _ H). simpl.
    by rewrite orderOf_withPage, lookup_insert_ne.
  - by rewrite H.
Qed.

Lemma changeAnimationType_found item ty arr i :
  entryIndex arr item = Some i →
  weakens arr (arrayOf (changeAnimationType item ty arr)).
Proof.
  intros Hi. unfold changeAnimationType. rewrite Hi.
  assert (weakens arr (alter (Entry.set_animationType ty) i arr)) as Hw
    by (apply weakens_alter; [done | by left]).
  destruct (negb (Js.truthy ty)); [|done].
  eapply weakens_trans; [exact Hw | apply updateSuccessors_weakens].
Qed.

Lemma changeAnimationType_ids item ty arr :
  Entry.id <$> arrayOf (changeAnimationType item ty arr) = Entry.id <$> arr
  ∨ ((item ∉ Entry.id <$> arr)
     ∧ Entry.id <$> arrayOf (changeAnimationType item ty arr)
       = (Entry.id <$> arr) ++ [item]).
Proof.
  destruct (entryIndex arr item) as [i|] eqn:Hi.
  - left. by apply weakens_ids, (changeAnimationType_found _ _ _ i).
  - right. split; [by apply entryIndex_None|].
    unfold changeAnimationType. rewrite Hi. simpl. by rewrite fmap_app.
Qed.

Lemma addAnimation_ids st page item predecessor arr :
  Entry.id <$> addAnimation isValid st page item predecessor arr
  = Entry.id <$> arr
  ∨ ((item ∉ Entry.id <$> arr)
     ∧ Entry.id <$> addAnimation isValid st page item predecessor arr
       = (Entry.id <$> arr) ++ [item]).
Proof.
  unfold addAnimation. destruct (entryIndex arr item) as [i|] eqn:Hi.
  - left. by apply ids_alter.
  - right. split; [by apply entryIndex_None|]. by rewrite fmap_app.
Qed.

(** The identifiers of the action's page after a call: those before it,
    followed by the action's item when the call created its entry. *)
Lemma animations_ids_cases st a :
  Entry.id <$> pageOrder (settle st (animations isValid st a)) (Action.page a)
  = Entry.id <$> pageOrder st (Action.page a)
  ∨ ((Action.item a ∉ Entry.id <$> pageOrder st (Action.page a))
     ∧ Entry.id <$> pageOrder (settle st (animations isValid st a))
                      (Action.page a)
       = (Entry.id <$> pageOrder st (Action.page a)) ++ [Action.item a]).
Proof.
  destruct (animations_cases isValid st a)
    as [H | [H | [H | [H | [H | [H | H]]]]]].
  - rewrite (animations_ADD _ _ _ H). simpl. rewrite pageOrder_withPage.
    apply addAnimation_ids.
  - rewrite (animations_TYPE _ _ _ H).
    pose proof (changeAnimationType_ids (Action.item a)
                  (Action.animationType a) (pageOrder st (Action.page a)))
      as Hids.
    destruct (changeAnimationType _ _ _) as [arr|arr]; simpl in *.
    + by rewrite pageOrder_withPage.
    + destruct (pageOrder_inPlace st (Action.page a) arr) as [-> | [-> _]];
        [done | by left].
  - left. rewrite (animations_DURATION _ _ _ H). simpl.
    rewrite pageOrder_withPage. by apply weakens_ids, updateEntry_weakens.
  - left. rewrite (animations_DELAY _ _ _ H). simpl.
    rewrite pageOrder_withPage. by apply weakens_ids, updateEntry_weakens.
  - left. rewrite (animations_PLAY _ _ _ H). simpl.
    rewrite pageOrder_withPage. apply weakens_ids.
    destruct (Js.truthy (Action.item a));
      [by apply updateEntry_weakens | by apply weakens_fmap].
  - left. rewrite (animations_STOP _ _ _ H). simpl.
    rewrite pageOrder_withPage. apply weakens_ids.
    destruct (Js.truthy (Action.item a));
      [by apply updateEntry_weakens | by apply weakens_fmap].
  - left. by rewrite H.
Qed.

Lemma pageOrder_other st a page :
  Js.key (Action.page a) ≠ Js.key page →
  pageOrder (settle st (animations isValid st a)) page = pageOrder st page.
Proof.
  intros Hk.
  destruct (animations_step (λ _ _ _, True) isValid st a) as [-> | [_ Ho]];
    [done | done | done | by apply Ho].
Qed.

(** X2. A call appends at most one identifier to a page and moves or
    drops none: the identifiers after the call are those before it, in
    the same order, followed by nothing or by the action's item, and the
    item is appended only when the page did not have it. *)
Theorem animations_appends_at_most_one_identifier st a page :
  ∃ added,
    Entry.id <$> pageOrder (settle st (animations isValid st a)) page
    = (Entry.id <$> pageOrder st page) ++ added
    ∧ (added = []
       ∨ (added = [Action.item a]
          ∧ Js.key page = Js.key (Action.page a)
          ∧ Action.item a ∉ Entry.id <$> pageOrder st page)).
Proof.
  destruct (decide (Js.key (Action.page a) = Js.key page)) as [Hk | Hk].
  - rewrite <- !(pageOrder_key _ _ _ Hk).
    destruct (animations_ids_cases st a) as [-> | [Hnew ->]].
    + exists []. split; [by rewrite app_nil_r | by left].
    + exists [Action.item a]. split; [done | by right].
  - exists []. rewrite pageOrder_other by done.
    split; [by rewrite app_nil_r | by left].
Qed.

(** X3. In every state reached from the initial one, whatever the
    validity check, no two entries of a page have the same identifier:
    an entry is pushed only after [entryIndex] has not found its
    identifier. *)
Theorem reachable_identifiers_are_distinct st :
  reachable isValid st → ∀ page, NoDup (Entry.id <$> pageOrder st page).
Proof.
  induction 1 as [|st a _ IH]; intros page.
  - unfold pageOrder, orderOf. simpl. rewrite lookup_empty. constructor.
  - destruct (decide (Js.key (Action.page a) = Js.key page)) as [Hk | Hk].
    + rewrite <- (pageOrder_key _ _ _ Hk).
      destruct (animations_ids_cases st a) as [-> | [Hnew ->]]; [apply IH|].
      apply NoDup_app. split_and!; [apply IH | | apply NoDup_singleton].
      intros x Hx ->%list_elem_of_singleton. contradiction.
    + rewrite pageOrder_other by done. apply IH.
Qed.


End AnimationsPages.

(** ** The animations reducer: changing the animation type *)

Section AnimationsTypeChange.

Import Animations.

Variable isValid :
  state → option string → option string → option string → bool.

Implicit Types (st : state) (a : Action.t) (arr : list Entry.t).

(** With a parent to read [.parent] from, the loop never throws. *)
Lemma updateSuccessors_Some q successors arr :
  ∃ arr', updateSuccessors (Some q) successors arr = Done arr'.
Proof.
  revert arr. induction successors as [|k ks IH]; intros arr; simpl.
  - by eexists.
  - unfold reparent. destruct (entryIndex arr (Some k)); apply IH.
Qed.

(** With the item at the root, the loop throws at the first key that is
    an identifier of the page, before it has changed anything. *)
Lemma updateSuccessors_None successors arr :
  updateSuccessors None successors arr
  = if decide (Exists (λ k, Some k ∈ Entry.id <$> arr) successors)
    then Raised arr else Done arr.
Proof.
  induction successors as [|k ks IH].
  - destruct (decide _) as [He|]; [by apply Exists_nil in He | done].
  - cbn [updateSuccessors]. unfold reparent.
    destruct (entryIndex arr (Some k)) as [i|] eqn:Hi.
    + destruct (decide (Exists _ (k :: ks))) as [|Hn]; [done|].
      exfalso. apply Hn. apply Exists_cons_hd.
      destruct (decide (Some k ∈ Entry.id <$> arr)) as [|Hk]; [done|].
      apply entryIndex_None in Hk. congruence.
    + rewrite IH. apply entryIndex_None in Hi.
      destruct (decide (Exists _ ks)) as [He | He];
        destruct (decide (Exists _ (k :: ks))) as [He' | He']; try done.
      * exfalso. apply He'. by apply Exists_cons_tl.
      * apply Exists_cons in He' as [?|?]; contradiction.
Qed.

Lemma keys_match {A : Type} (l : list A) arr :
  Exists (λ k, Some k ∈ Entry.id <$> arr) (Js.keys l)
  ↔ ∃ k : nat, (k < length l)%nat ∧ Some (pretty k) ∈ Entry.id <$> arr.
Proof.
  unfold Js.keys. rewrite Exists_fmap, Exists_exists. split.
  - intros (k & Hk & Hin). apply elem_of_seq in Hk. exists k. split; [lia | done].
  - intros (k & Hk & Hin). exists k. split; [|done]. apply elem_of_seq. lia.
Qed.

Lemma successors_length item arr arr' :
  Entry.parent <$> arr = Entry.parent <$> arr' →
  length (filter (λ e, Entry.parent e = item) arr)
  = length (filter (λ e, Entry.parent e = item) arr').
Proof.
  revert arr'. induction arr as [|x arr IH]; intros [|y arr']; try done.
  rewrite !fmap_cons. intros [= Hxy Hrest]. rewrite !filter_cons, Hxy.
  destruct (decide (Entry.parent y = item)); simpl; by rewrite (IH arr').
Qed.

(** The run of a [CHANGE_ANIMATION_TYPE] case on an item of the page. *)
Lemma changeAnimationType_present item ty arr i e :
  entryIndex arr item = Some i → arr !! i = Some e →
  changeAnimationType item ty arr
  = if Js.truthy ty then Done (<[i := Entry.set_animationType ty e]> arr)
    else updateSuccessors (Entry.parent e)
           (Js.keys (filter (λ e, Entry.parent e = item) arr))
           (<[i := Entry.set_animationType ty e]> arr).
Proof.
  intros Hi He. unfold changeAnimationType. rewrite Hi.
  rewrite (alter_insert _ _ _ _ He).
  destruct (Js.truthy ty); simpl; [done|].
  rewrite list_lookup_insert_eq by (by eapply lookup_lt_Some). simpl.
  unfold Js.keys. f_equal. f_equal. f_equal.
  apply successors_length. rewrite <- (alter_insert _ _ _ _ He).
  by apply parents_alter.
Qed.

Lemma ids_insert_type arr i e ty :
  arr !! i = Some e →
  Entry.id <$> <[i := Entry.set_animationType ty e]> arr = Entry.id <$> arr.
Proof.
  intros He. rewrite <- (alter_insert _ _ _ _ He). by apply ids_alter.
Qed.


(** X6. Disabling the animation of an item of the page (a
    [CHANGE_ANIMATION_TYPE] action with no animation type), where none of
    the keys 0, 1, ... of the array of the item's successors is an
    identifier of the page, returns a state in which the entry has lost
    its type and every entry has the parent it had: nothing is re-parented
    and nothing is thrown. *)
Theorem disabling_without_index_identifiers_sets_only_the_type st a :
  Action.type a = "CHANGE_ANIMATION_TYPE" →
  Js.truthy (Action.animationType a) = false →
  Action.item a ∈ Entry.id <$> pageOrder st (Action.page a) →
  (∀ k : nat,
     (k < length (filter (λ e, Entry.parent e = Action.item a)
                    (pageOrder st (Action.page a))))%nat →
     Some (pretty k) ∉ Entry.id <$> pageOrder st (Action.page a)) →
  ∃ st' i e,
    animations isValid st a = NewVal st'
    ∧ pageOrder st (Action.page a) !! i = Some e
    ∧ Entry.id e = Action.item a
    ∧ pageOrder st' (Action.page a)
      = <[i := Entry.set_animationType (Action.animationType a) e]>
          (pageOrder st (Action.page a)).
Proof.
  intros Hty Htr [i Hi]%entryIndex_elem Hkeys.
  destruct (entryIndex_Some _ _ _ Hi) as (e & He & Hid & _).
  rewrite (animations_TYPE _ _ _ Hty).
  rewrite (changeAnimationType_present _ _ _ _ _ Hi He), Htr.
  rewrite updateSuccessors_no_match.
  - eexists _, i, e. split_and!; try done. by rewrite pageOrder_withPage.
  - unfold Js.keys. apply Forall_fmap, Forall_forall.
    intros k Hk%elem_of_seq. simpl. rewrite ids_insert_type by done.
    apply Hkeys. lia.
Qed.

(** X7. For an action whose page key names no member of
    [Object.prototype] (so that [animationOrder[ page ]] reads the state's
    own entry or [undefined]), and a validity check that returns, the
    reducer throws in one situation only: a [CHANGE_ANIMATION_TYPE] action
    with no animation type, for an item of the page that has no parent,
    when one of the keys 0, 1, ... of the array of the item's successors
    is an identifier of the page.  What the throw leaves behind is the
    prior state with the item's type already set, and nothing else
    changed. *)
Theorem animations_throws_exactly_when st a :
  Js.key (Action.page a) ∉ Js.inheritedKeys →
  ((∃ s, animations isValid st a = Throws s)
   ↔ Action.type a = "CHANGE_ANIMATION_TYPE"
     ∧ Js.truthy (Action.animationType a) = false
     ∧ ∃ i e,
         entryIndex (pageOrder st (Action.page a)) (Action.item a) = Some i
         ∧ pageOrder st (Action.page a) !! i = Some e
         ∧ Entry.parent e = None
         ∧ ∃ k : nat,
             (k < length (filter (λ e, Entry.parent e = Action.item a)
                            (pageOrder st (Action.page a))))%nat
             ∧ Some (pretty k) ∈ Entry.id <$> pageOrder st (Action.page a))
  ∧ ∀ s, animations isValid st a = Throws s →
      ∃ i e,
        entryIndex (pageOrder st (Action.page a)) (Action.item a) = Some i
        ∧ pageOrder st (Action.page a) !! i = Some e
        ∧ pageOrder s (Action.page a)
          = <[i := Entry.set_animationType (Action.animationType a) e]>
              (pageOrder st (Action.page a))
        ∧ ∀ k, k ≠ Js.key (Action.page a) → orderOf s !! k = orderOf st !! k.
Proof.
  intros _.
  assert (Hfwd : ∀ s, animations isValid st a = Throws s →
    Action.type a = "CHANGE_ANIMATION_TYPE"
    ∧ Js.truthy (Action.animationType a) = false
    ∧ ∃ i e,
        entryIndex (pageOrder st (Action.page a)) (Action.item a) = Some i
        ∧ pageOrder st (Action.page a) !! i = Some e
        ∧ Entry.parent e = None
        ∧ (∃ k : nat,
             (k < length (filter (λ e, Entry.parent e = Action.item a)
                            (pageOrder st (Action.page a))))%nat
             ∧ Some (pretty k) ∈ Entry.id <$> pageOrder st (Action.page a))
        ∧ s = inPlace st (Action.page a)
                (<[i := Entry.set_animationType (Action.animationType a) e]>
                   (pageOrder st (Action.page a)))).
  { intros s Hs.
    destruct (animations_cases isValid st a)
      as [H | [H | [H | [H | [H | [H | H]]]]]].
    - by rewrite (animations_ADD _ _ _ H) in Hs.
    - split; [done|]. rewrite (animations_TYPE _ _ _ H) in Hs.
      destruct (entryIndex (pageOrder st (Action.page a)) (Action.item a))
        as [i|] eqn:Hi.
      + destruct (entryIndex_Some _ _ _ Hi) as (e & He & Hid & _).
        rewrite (changeAnimationType_present _ _ _ _ _ Hi He) in Hs.
        destruct (Js.truthy (Action.animationType a)); [done|].
        split; [done|]. exists i, e.
        destruct (Entry.parent e) as [q|] eqn:Hp.
        * destruct (updateSuccessors_Some q
                      (Js.keys (filter (λ e0, Entry.parent e0 = Action.item a)
                                  (pageOrder st (Action.page a))))
                      (<[i := Entry.set_animationType
                                (Action.animationType a) e]>
                         (pageOrder st (Action.page a)))) as [arr' Harr].
          by rewrite Harr in Hs.
        * rewrite updateSuccessors_None in Hs.
          destruct (decide (Exists _ _)) as [Hex | Hex]; [|done].
          injection Hs as <-. split_and!; try done.
          apply keys_match in Hex. by rewrite ids_insert_type in Hex.
      + unfold changeAnimationType in Hs. by rewrite Hi in Hs.
    - by rewrite (animations_DURATION _ _ _ H) in Hs.
    - by rewrite (animations_DELAY _ _ _ H) in Hs.
    - by rewrite (animations_PLAY _ _ _ H) in Hs.
    - by rewrite (animations_STOP _ _ _ H) in Hs.
    - by rewrite H in Hs. }
  split; [split|].
  - intros [s Hs]. destruct (Hfwd s Hs) as (? & ? & i & e & ? & ? & ? & ? & _).
    split_and!; try done. by exists i, e.
  - intros (Hty & Htr & i & e & Hi & He & Hp & Hex).
    rewrite (animations_TYPE _ _ _ Hty).
    rewrite (changeAnimationType_present _ _ _ _ _ Hi He), Htr, Hp.
    rewrite updateSuccessors_None.
    destruct (decide _) as [|Hn]; [by eexists|]. exfalso. apply Hn.
    apply keys_match. by rewrite ids_insert_type.
  - intros s Hs.
    destruct (Hfwd s Hs) as (_ & _ & i & e & Hi & He & _ & _ & ->).
    exists i, e. split_and!; try done.
    + destruct (pageOrder_inPlace st (Action.page a)
                  (<[i := Entry.set_animationType (Action.animationType a) e]>
                     (pageOrder st (Action.page a)))) as [-> | [_ Hnil]];
        [done|]. by rewrite Hnil in He.
    + intros k Hk. unfold inPlace.
      destruct (orderOf st !! Js.key (Action.page a)); [|done].
      by rewrite orderOf_withPage, lookup_insert_ne.
Qed.

End AnimationsTypeChange.

(** ** The animations reducer: repeated actions and unknown pages *)

Section AnimationsRepeat.

Import Animations.

Variable isValid :
  state → option string → option string → option string → bool.

Implicit Types (st : state) (a : Action.t) (arr : list Entry.t).

Lemma withPage_withPage st page arr arr' :
  withPage (withPage st page arr) page arr' = withPage st page arr'.
Proof.
  unfold withPage at 1 3. f_equal. f_equal.
  rewrite orderOf_withPage. apply insert_insert_eq.
Qed.

Lemma updateEntry_idem (f : Entry.t → Entry.t) item arr :
  (∀ e, Entry.id (f e) = Entry.id e) → (∀ e, f (f e) = f e) →
  updateEntry f item (updateEntry f item arr) = updateEntry f item arr.
Proof.
  intros Hid Hf. unfold updateEntry.
  destruct (entryIndex arr item) as [i|] eqn:Hi; [|by rewrite Hi].
  rewrite (entryIndex_ids (alter f i arr) arr) by (by apply ids_alter).
  rewrite Hi, list_alter_alter_eq. apply list_alter_ext; [|done].
  intros e _. apply Hf.
Qed.

Lemma playAll_idem arr : playAll (playAll arr) = playAll arr.
Proof.
  unfold playAll. rewrite <- list_fmap_compose. apply list_fmap_ext.
  intros _ e _. simpl. by destruct (bool_decide _).
Qed.

Lemma stopAll_idem arr : stopAll (stopAll arr) = stopAll arr.
Proof.
  unfold stopAll. rewrite <- list_fmap_compose. by apply list_fmap_ext.
Qed.

(** X8. Dispatching the same [CHANGE_ANIMATION_DURATION],
    [CHANGE_ANIMATION_DELAY], [PLAY_ANIMATION] or [STOP_ANIMATION] action
    (targeted or broadcast) a second time changes nothing: the state
    after two calls equals the state after one. *)
Theorem repeated_update_changes_nothing st a :
  Action.type a ∈ [ "CHANGE_ANIMATION_DURATION"; "CHANGE_ANIMATION_DELAY";
                    "PLAY_ANIMATION"; "STOP_ANIMATION" ] →
  settle (settle st (animations isValid st a))
    (animations isValid (settle st (animations isValid st a)) a)
  = settle st (animations isValid st a).
Proof.
  intros Hty.
  assert (∃ g : list Entry.t → list Entry.t,
            (∀ st0, animations isValid st0 a
                    = NewVal (withPage st0 (Action.page a)
                                (g (pageOrder st0 (Action.page a)))))
            ∧ ∀ arr, g (g arr) = g arr) as (g & Hg & Hidem).
  { rewrite !elem_of_cons, elem_of_nil in Hty.
    destruct Hty as [H | [H | [H | [H | []]]]].
    - exists (updateEntry (Entry.set_duration (Action.duration a))
                (Action.item a)).
      split; [intros; by apply animations_DURATION|].
      intros arr. by apply updateEntry_idem.
    - exists (updateEntry (Entry.set_delay (Action.delay a)) (Action.item a)).
      split; [intros; by apply animations_DELAY|].
      intros arr. by apply updateEntry_idem.
    - destruct (Js.truthy (Action.item a)) eqn:Ht.
      + exists (updateEntry (Entry.set_status (Some playing)) (Action.item a)).
        split; [intros; by rewrite (animations_PLAY _ _ _ H), Ht|].
        intros arr. by apply updateEntry_idem.
      + exists playAll.
        split; [intros; by rewrite (animations_PLAY _ _ _ H), Ht|].
        apply playAll_idem.
    - destruct (Js.truthy (Action.item a)) eqn:Ht.
      + exists (updateEntry (Entry.set_status (Some stopped)) (Action.item a)).
        split; [intros; by rewrite (animations_STOP _ _ _ H), Ht|].
        intros arr. by apply updateEntry_idem.
      + exists stopAll.
        split; [intros; by rewrite (animations_STOP _ _ _ H), Ht|].
        apply stopAll_idem. }
  rewrite (Hg st). simpl. rewrite Hg. simpl.
  by rewrite pageOrder_withPage, Hidem, withPage_withPage.
Qed.

(** X9. An action for a page the state has no sequence for, whose key
    names no member of [Object.prototype] (so that [animationOrder[ page ]]
    reads [undefined] and the reducer works on a fresh [[]]), does not
    fail: it returns a state in which the page has one.  For a
    [CHANGE_ANIMATION_DURATION], [CHANGE_ANIMATION_DELAY],
    [PLAY_ANIMATION] or [STOP_ANIMATION] action the sequence is empty; for
    an [ADD_ANIMATION] or [CHANGE_ANIMATION_TYPE] action it holds the one
    entry created for the item. *)
Theorem action_on_unknown_page_starts_its_sequence st a :
  Js.key (Action.page a) ∉ Js.inheritedKeys →
  orderOf st !! Js.key (Action.page a) = None →
  (Action.type a ∈ [ "CHANGE_ANIMATION_DURATION"; "CHANGE_ANIMATION_DELAY";
                     "PLAY_ANIMATION"; "STOP_ANIMATION" ] →
   ∃ st', animations isValid st a = NewVal st'
          ∧ orderOf st' !! Js.key (Action.page a) = Some [])
  ∧ (Action.type a = "ADD_ANIMATION" →
     ∃ st', animations isValid st a = NewVal st'
       ∧ orderOf st' !! Js.key (Action.page a)
         = Some [ Entry.create (Action.item a)
                    (if isValid st (Action.page a) (Action.item a)
                          (Action.predecessor a)
                     then Action.predecessor a else None) None ])
  ∧ (Action.type a = "CHANGE_ANIMATION_TYPE" →
     ∃ st', animations isValid st a = NewVal st'
       ∧ orderOf st' !! Js.key (Action.page a)
         = Some [ Entry.create (Action.item a) None (Action.animationType a) ]).
Proof.
  intros _ Hnone.
  assert (Hold : pageOrder st (Action.page a) = [])
    by (unfold pageOrder; by rewrite Hnone).
  split_and!.
  - intros Hty. rewrite !elem_of_cons, elem_of_nil in Hty.
    destruct Hty as [H | [H | [H | [H | []]]]].
    + rewrite (animations_DURATION _ _ _ H), Hold. eexists. split; [done|].
      by rewrite orderOf_withPage, lookup_insert_eq.
    + rewrite (animations_DELAY _ _ _ H), Hold. eexists. split; [done|].
      by rewrite orderOf_withPage, lookup_insert_eq.
    + rewrite (animations_PLAY _ _ _ H), Hold. eexists. split; [done|].
      rewrite orderOf_withPage, lookup_insert_eq.
      by destruct (Js.truthy (Action.item a)).
    + rewrite (animations_STOP _ _ _ H), Hold. eexists. split; [done|].
      rewrite orderOf_withPage, lookup_insert_eq.
      by destruct (Js.truthy (Action.item a)).
  - intros H. rewrite (animations_ADD _ _ _ H), Hold. eexists.
    split; [done|]. by rewrite orderOf_withPage, lookup_insert_eq.
  - intros H. rewrite (animations_TYPE _ _ _ H), Hold. eexists.
    split; [done|]. by rewrite orderOf_withPage, lookup_insert_eq.
Qed.

End AnimationsRepeat.

(** ** The blocks reducer: more on moving a page *)

Section MovePageMore.

Import Blocks.

Implicit Types (o : list string) (p : string).

(** [splice] keeps every element: what it leaves and what it returns
    make up the array and the inserted items. *)
Lemma splice_permutation (l items : list string) start deleteCount :
  (Js.splice l start deleteCount items).1
    ++ (Js.splice l start deleteCount items).2
  ≡ₚ l ++ items.
Proof.
  unfold Js.splice. simpl.
  set (s := Js.actualStart (length l) start).
  set (d := Z.to_nat _).
  assert (Hl : take s l ++ take d (drop s l) ++ drop (s + d) l = l)
    by (by rewrite <- drop_drop, !take_drop).
  set (kept := take s l) in *. set (removed := take d (drop s l)) in *.
  set (rest := drop (s + d) l) in *.
  rewrite <- Hl. solve_Permutation.
Qed.

Lemma movePage_permutation o page index : movePage o page index ≡ₚ o.
Proof.
  unfold movePage.
  pose proof (splice_permutation o [] (Js.indexOf o page) 1) as H1.
  destruct (Js.splice o (Js.indexOf o page) 1 []) as [l1 removed].
  simpl in H1. rewrite app_nil_r in H1.
  rewrite splice_put_in, <- H1.
  set (j := Js.actualStart (length l1) (default 0 index)).
  assert (Hl : take j l1 ++ drop j l1 = l1) by apply take_drop.
  set (front := take j l1) in *. set (back := drop j l1) in *.
  rewrite <- Hl. solve_Permutation.
Qed.

Lemma blocks_MOVE st a o :
  Action.type a = "MOVE_PAGE" →
  order st = Some o →
  blocks st a
  = NewVal (mk (Some (movePage o (Action.page a) (Action.index a)))
               (isReordering st)).
Proof. intros Hty Ho. unfold blocks. by rewrite Hty, Ho. Qed.

Lemma indexOf_absent o (page : option string) :
  (∀ p, page = Some p → p ∉ o) → Js.indexOf o page = -1.
Proof.
  induction o as [|y o IH]; intros Hout; simpl; [done|].
  rewrite bool_decide_eq_false_2.
  - rewrite IH; [done|]. intros p Hp Hin. apply (Hout p Hp). by right.
  - intros <-. apply (Hout y eq_refl). by left.
Qed.

(** Taking the last element out: [splice( -1, 1 )]. *)
Lemma splice_take_last (init : list string) x :
  Js.splice (init ++ [x]) (-1) 1 [] = (init, [x]).
Proof.
  unfold Js.splice, Js.actualStart. rewrite bool_decide_eq_true_2 by lia.
  rewrite length_app. simpl.
  replace (Z.to_nat (Z.max (Z.of_nat (length init + 1) + -1) 0))
    with (length init) by lia.
  replace (Z.to_nat (Z.min (Z.max 1 0)
             (Z.of_nat (length init + 1 - length init))))
    with 1%nat by lia.
  rewrite take_app_length, drop_app_length. simpl.
  replace (length init + 1)%nat with (length (init ++ [x]))
    by (rewrite length_app; simpl; lia).
  by rewrite drop_all, app_nil_r.
Qed.

(** X10. A [MOVE_PAGE] action on a state that has an order never loses or
    duplicates a block, whatever the page and the index (a page that is
    not in the order, an index out of range): the new order is a
    permutation of the old one, of the same length, and the reordering
    flag is kept. *)
Theorem move_page_always_permutes st a o :
  Action.type a = "MOVE_PAGE" →
  order st = Some o →
  ∃ o', blocks st a = NewVal (mk (Some o') (isReordering st))
        ∧ o' ≡ₚ o ∧ length o' = length o.
Proof.
  intros Hty Ho. exists (movePage o (Action.page a) (Action.index a)).
  split_and!.
  - unfold blocks. by rewrite Hty, Ho.
  - apply movePage_permutation.
  - by rewrite movePage_permutation.
Qed.

(** X11. A [MOVE_PAGE] action for a page that is not in the order (or for
    no page) moves the last block instead: [indexOf] gives -1, and
    [splice( -1, 1 )] takes the last element out, which is then put in at
    the position the action's index designates in what remains: the index
    itself when it is within, the end when it is beyond, counted back
    from the end when it is negative, and 0 when the action has none. *)
Theorem move_absent_page_moves_last_block st a init x :
  Action.type a = "MOVE_PAGE" →
  order st = Some (init ++ [x]) →
  (∀ p, Action.page a = Some p → p ∉ init ++ [x]) →
  ∃ j, j = Js.actualStart (length init) (default 0 (Action.index a))
    ∧ (0 ≤ default 0 (Action.index a) →
       j = Z.to_nat (Z.min (default 0 (Action.index a))
                       (Z.of_nat (length init))))
    ∧ (default 0 (Action.index a) < 0 →
       j = Z.to_nat (Z.max (Z.of_nat (length init)
                            + default 0 (Action.index a)) 0))
    ∧ blocks st a
      = NewVal (mk (Some (take j init ++ x :: drop j init))
                   (isReordering st))
    ∧ (take j init ++ x :: drop j init) !! j = Some x.
Proof.
  intros Hty Ho Hout.
  set (j := Js.actualStart (length init) (default 0 (Action.index a))).
  assert (Hj : (j ≤ length init)%nat) by apply actualStart_le.
  exists j. split_and!; [done | | | |].
  - intros Hi. unfold j, Js.actualStart.
    rewrite bool_decide_eq_false_2 by lia. lia.
  - intros Hi. unfold j, Js.actualStart.
    rewrite bool_decide_eq_true_2 by lia. lia.
  - unfold blocks. rewrite Hty, Ho. simpl. do 3 f_equal.
    unfold movePage. rewrite (indexOf_absent _ _ Hout), splice_take_last.
    by rewrite splice_put_in.
  - rewrite lookup_app_r by (rewrite length_take; lia).
    rewrite length_take.
    by replace (j - j `min` length init)%nat with 0%nat by lia.
Qed.

(** X12. After a [MOVE_PAGE] action for a page of the order, the page
    stands at the action's index: at the index itself when it is within
    the order, at the last position when it is beyond, and for a negative
    index at that distance before the last position (not before the
    first). An absent index is 0. *)
Theorem moved_page_stands_at_index st a o p :
  Action.type a = "MOVE_PAGE" →
  order st = Some o →
  Action.page a = Some p →
  p ∈ o →
  ∃ o', blocks st a = NewVal (mk (Some o') (isReordering st))
    ∧ (0 ≤ default 0 (Action.index a) →
       o' !! Z.to_nat (Z.min (default 0 (Action.index a))
                         (Z.of_nat (length o) - 1)) = Some p)
    ∧ (default 0 (Action.index a) < 0 →
       o' !! Z.to_nat (Z.max (Z.of_nat (length o) - 1
                              + default 0 (Action.index a)) 0) = Some p).
Proof.
  intros Hty Ho Hp Hin.
  destruct (indexOf_elem o p Hin) as (pre & suf & -> & Hpre & _).
  exists (movePage (pre ++ (p :: suf)) (Some p) (Action.index a)).
  split; [unfold blocks; by rewrite Hty, Ho, Hp|].
  rewrite movePage_elem by done.
  set (i := default 0 (Action.index a)).
  assert (Hlen : length (pre ++ (p :: suf)) = S (length (pre ++ suf)))
    by (rewrite !length_app; simpl; lia).
  assert (Hat : ∀ j, (j ≤ length (pre ++ suf))%nat →
            (take j (pre ++ suf) ++ (p :: drop j (pre ++ suf))) !! j = Some p).
  { intros j Hj. rewrite lookup_app_r by (rewrite length_take; lia).
    rewrite length_take. by replace (j - j `min` length (pre ++ suf))%nat
      with 0%nat by lia. }
  split; intros Hi.
  - replace (Z.to_nat (Z.min i (Z.of_nat (length (pre ++ (p :: suf))) - 1)))
      with (Js.actualStart (length (pre ++ suf)) i);
      [apply Hat, actualStart_le|].
    unfold Js.actualStart. rewrite bool_decide_eq_false_2 by lia. lia.
  - replace (Z.to_nat (Z.max (Z.of_nat (length (pre ++ (p :: suf))) - 1 + i) 0))
      with (Js.actualStart (length (pre ++ suf)) i);
      [apply Hat, actualStart_le|].
    unfold Js.actualStart. rewrite bool_decide_eq_true_2 by lia. lia.
Qed.

(** X13. Moving a page that occurs once in the order to any index and
    then back to the position it had restores the order. *)
Theorem move_page_back_restores_order (pre suf : list string) p index :
  p ∉ pre → p ∉ suf →
  movePage (movePage (pre ++ (p :: suf)) (Some p) index) (Some p)
    (Some (Z.of_nat (length pre)))
  = pre ++ (p :: suf).
Proof.
  intros Hpre Hsuf. rewrite (movePage_elem pre suf p index Hpre).
  set (j := Js.actualStart (length (pre ++ suf)) (default 0 index)).
  assert (Hnot : p ∉ pre ++ suf)
    by (intros [?|?]%elem_of_app; contradiction).
  rewrite movePage_elem.
  - rewrite !take_drop. simpl.
    replace (Js.actualStart (length (pre ++ suf)) (Z.of_nat (length pre)))
      with (length pre).
    + by rewrite take_app_length, drop_app_length.
    + unfold Js.actualStart. rewrite bool_decide_eq_false_2 by lia.
      rewrite length_app. lia.
  - intros (i & Hi & _)%elem_of_take. apply Hnot.
    by eapply list_elem_of_lookup_2.
Qed.

(** X14. Moving a page of the order to the index it already has leaves
    the order as it is. *)
Theorem move_page_to_own_index_is_identity o p :
  p ∈ o →
  movePage o (Some p) (Some (Js.indexOf o (Some p))) = o.
Proof.
  intros Hin. destruct (indexOf_elem o p Hin) as (pre & suf & -> & Hpre & ->).
  rewrite movePage_elem by done. simpl.
  replace (Js.actualStart (length (pre ++ suf)) (Z.of_nat (length pre)))
    with (length pre).
  - by rewrite take_app_length, drop_app_length.
  - unfold Js.actualStart. rewrite bool_decide_eq_false_2 by lia.
    rewrite length_app. lia.
Qed.

(** X15. Once reordering has an order, any run of [MOVE_PAGE] actions
    leaves a permutation of it, and leaves the reordering flag alone: a
    reordering session never loses or duplicates a block. *)
Theorem move_page_run_permutes st actions o :
  order st = Some o →
  Forall (λ a, Action.type a = "MOVE_PAGE") actions →
  ∃ o', order (Store.dispatchAll blocks st actions) = Some o'
        ∧ o' ≡ₚ o
        ∧ isReordering (Store.dispatchAll blocks st actions) = isReordering st.
Proof.
  intros Ho. unfold Store.dispatchAll.
  induction actions as [|a actions IH] using rev_ind; intros Hall.
  - by exists o.
  - apply Forall_app in Hall as [Hall Ha]. apply Forall_cons_1 in Ha as [Ha _].
    destruct (IH Hall) as (o1 & Ho1 & Hperm & Hflag). rewrite foldl_snoc.
    rewrite (blocks_MOVE _ a o1 Ha Ho1). simpl.
    eexists. split_and!; [done | | done].
    by rewrite movePage_permutation.
Qed.

End MovePageMore.

(** ** The blocks reducer: when it throws *)

Section BlocksThrow.

Import Blocks.

(** X16. The blocks reducer throws in one situation only: a [MOVE_PAGE]
    action on a state that has no order yet (as the initial state), where
    [state.order.indexOf] is read off [undefined]; the state is left as it
    was. *)
Theorem blocks_throws_exactly_when st a :
  ((∃ s, blocks st a = Throws s)
   ↔ Action.type a = "MOVE_PAGE" ∧ order st = None)
  ∧ ∀ s, blocks st a = Throws s → s = st.
Proof.
  assert (Hfwd : ∀ s, blocks st a = Throws s →
            Action.type a = "MOVE_PAGE" ∧ order st = None ∧ s = st).
  { intros s. unfold blocks.
    destruct (String.eqb (Action.type a) "START_REORDERING"); [done|].
    destruct (String.eqb (Action.type a) "STOP_REORDERING"); [done|].
    destruct (String.eqb (Action.type a) "MOVE_PAGE") eqn:Hm.
    - apply String.eqb_eq in Hm. destruct (order st); [done|].
      by intros [= <-].
    - by destruct (String.eqb (Action.type a) "RESET_ORDER"). }
  split; [split|].
  - intros [s Hs]. by destruct (Hfwd s Hs) as (? & ? & _).
  - intros [Hty Ho]. exists st. unfold blocks. by rewrite Hty, Ho.
  - intros s Hs. by destruct (Hfwd s Hs) as (_ & _ & ->).
Qed.

End BlocksThrow.

(** ** The current page *)

Section CurrentPageRun.

Import CurrentPage.

(** X17. After any run of actions the current page is the page of the
    last [SET_CURRENT_PAGE] action of the run (which may be [undefined]),
    and the page held before the run if there is none. *)
Theorem current_page_is_the_last_one_set (st : option string)
    (actions : list Action.t) :
  Store.dispatchAll currentPage st actions
  = default st
      (last (Action.page
               <$> filter (λ a, Action.type a = "SET_CURRENT_PAGE") actions)).
Proof.
  unfold Store.dispatchAll.
  induction actions as [|a actions IH] using rev_ind; [done|].
  rewrite foldl_snoc, filter_app, fmap_app, IH. unfold currentPage.
  rewrite filter_cons, filter_nil.
  destruct (decide (Action.type a = "SET_CURRENT_PAGE")) as [Hty | Hty].
  - rewrite Hty. simpl. by rewrite last_snoc.
  - apply String.eqb_neq in Hty. rewrite Hty. simpl. by rewrite app_nil_r.
Qed.

End CurrentPageRun.

(** ** The context-menu handler *)

Section ContextMenuHandler.

Import ContextMenu.

Implicit Types (p : page) (sel : list string).

(** X18. With no block selected, or with a multi-selection, the handler
    returns at once: nothing is added to the page, nothing is rendered,
    and the event's default is not prevented. *)
Theorem context_menu_ignored_without_single_selection sel multi x y p :
  sel = [] ∨ multi = true →
  onContextMenu sel multi x y p = Returned p.
Proof.
  intros [-> | ->]; unfold onContextMenu; [done|].
  by destruct (bool_decide _).
Qed.

Lemma context_menu_guard sel x y p :
  onContextMenu sel true x y p = Returned p.
Proof. unfold onContextMenu. by destruct (bool_decide _). Qed.

Lemma onContextMenu_selected sel multi x y p :
  sel ≠ [] → multi = false →
  onContextMenu sel multi x y p
  = match wrappers p with
    | [] =>
        if editLayout p
        then Returned (mk (editLayout p) [Some (mkMenu sel x y)] true)
        else Threw p
    | _ :: rest =>
        Returned (mk (editLayout p) (Some (mkMenu sel x y) :: rest) true)
    end.
Proof.
  intros Hsel ->. unfold onContextMenu.
  rewrite bool_decide_eq_false_2 by (by destruct sel).
  destruct (wrappers p) as [|w ws]; [|done]. by destruct (editLayout p).
Qed.

(** X19. With a single selection, and a menu wrapper on the page or an
    edit layout to put one in, the handler renders the menu for the
    selected blocks at the pointer's coordinates in the first wrapper,
    prevents the event's default, and leaves exactly as many wrappers as
    there were, or one if there was none. *)
Theorem context_menu_renders_in_one_wrapper sel x y p :
  sel ≠ [] →
  wrappers p ≠ [] ∨ editLayout p = true →
  ∃ p', onContextMenu sel false x y p = Returned p'
    ∧ wrappers p' = Some (mkMenu sel x y) :: tail (wrappers p)
    ∧ length (wrappers p') = Nat.max 1 (length (wrappers p))
    ∧ defaultPrevented p' = true
    ∧ editLayout p' = editLayout p.
Proof.
  intros Hsel Hroom. rewrite onContextMenu_selected by done.
  destruct (wrappers p) as [|w ws] eqn:Hw.
  - destruct Hroom as [? | ->]; [done|]. by eexists.
  - by eexists.
Qed.

(** X20. The handler throws in one situation only: a single selection on
    a page that has neither a menu wrapper nor an edit layout, where
    [appendChild] is read off [null]; the page is left as it was and the
    event's default is not prevented. *)
Theorem context_menu_throws_exactly_when sel multi x y p :
  ((∃ q, onContextMenu sel multi x y p = Threw q)
   ↔ sel ≠ [] ∧ multi = false ∧ wrappers p = [] ∧ editLayout p = false)
  ∧ ∀ q, onContextMenu sel multi x y p = Threw q → q = p.
Proof.
  assert (Hfwd : ∀ q, onContextMenu sel multi x y p = Threw q →
            sel ≠ [] ∧ multi = false ∧ wrappers p = []
            ∧ editLayout p = false ∧ q = p).
  { intros q Hq. destruct sel as [|b sel]; [done|].
    destruct multi; [by rewrite context_menu_guard in Hq|].
    rewrite onContextMenu_selected in Hq by done.
    destruct (wrappers p); [|done].
    destruct (editLayout p); [done|]. by injection Hq as <-. }
  split; [split|].
  - intros [q Hq]. by destruct (Hfwd q Hq) as (? & ? & ? & ? & _).
  - intros (Hsel & -> & Hw & Hl). exists p.
    rewrite onContextMenu_selected by done. by rewrite Hw, Hl.
  - intros q Hq. by destruct (Hfwd q Hq) as (_ & _ & _ & _ & ->).
Qed.

Lemma onContextMenu_wrappers sel multi x y p :
  (length (wrappers p) ≤ 1)%nat →
  (length (wrappers (pageOf (onContextMenu sel multi x y p))) ≤ 1)%nat.
Proof.
  intros Hlen. destruct sel as [|b sel]; [done|].
  destruct multi; [by rewrite context_menu_guard|].
  rewrite onContextMenu_selected by done.
  destruct (wrappers p) as [|w ws] eqn:Hw; simpl in *.
  - destruct (editLayout p); simpl; [lia | by rewrite Hw].
  - lia.
Qed.

(** X21. The handler never puts a second menu wrapper on the page: from a
    page with at most one, any run of context-menu events leaves at most
    one. *)
Theorem context_menu_run_keeps_one_wrapper events p :
  (length (wrappers p) ≤ 1)%nat →
  (length (wrappers (handleAll events p)) ≤ 1)%nat.
Proof.
  intros Hlen. unfold handleAll.
  induction events as [|ev events IH] using rev_ind; [done|].
  rewrite foldl_snoc. by apply onContextMenu_wrappers.
Qed.

End ContextMenuHandler.

(** ** Further instances on the sample data *)

(** Stopping every animation of page [q] leaves the chain of page [p]. *)
Lemma animations_touches_only_its_page_witness :
  Animations.orderOf
    (settle Sample.chain
       (Animations.animations Sample.check Sample.chain
          (Sample.act "STOP_ANIMATION" (Some "q") None))) !! "p"
  = Animations.orderOf Sample.chain !! "p".
Proof.
  apply (animations_touches_only_its_page Sample.check Sample.chain
           (Sample.act "STOP_ANIMATION" (Some "q") None) "p").
  compute_done.
Defined.

(** The state reached by adding [a] and then [b] has distinct
    identifiers on page [p]. *)
Lemma reachable_identifiers_are_distinct_witness :
  NoDup (Entry.id <$> Animations.pageOrder Sample.twoAdded (Some "p")).
Proof.
  apply (reachable_identifiers_are_distinct Sample.check Sample.twoAdded).
  unfold Sample.twoAdded. do 2 apply Animations.reachable_step.
  apply Animations.reachable_initial.
Defined.



(** Disabling [b] of the chain: its one successor has key ["0"], which is
    no identifier of the page. *)
Lemma disabling_without_index_identifiers_sets_only_the_type_witness :
  ∃ st' i e,
    Animations.animations Sample.check Sample.chain
      (Sample.act "CHANGE_ANIMATION_TYPE" (Some "p") (Some "b")) = NewVal st'
    ∧ Animations.pageOrder Sample.chain (Some "p") !! i = Some e
    ∧ Animations.pageOrder st' (Some "p")
      = <[i := Entry.set_animationType None e]>
          (Animations.pageOrder Sample.chain (Some "p")).
Proof.
  destruct (disabling_without_index_identifiers_sets_only_the_type
              Sample.check Sample.chain
              (Sample.act "CHANGE_ANIMATION_TYPE" (Some "p") (Some "b")))
    as (st' & i & e & Hret & He & _ & Hnew);
    [reflexivity | reflexivity | compute_done | |].
  - intros k Hk. vm_compute in Hk.
    assert (k = 0%nat) as -> by lia. compute_done.
  - exists st', i, e. split_and!; [exact Hret | exact He | exact Hnew].
Defined.

(** Disabling the root entry [0], whose successor has key ["0"]. *)
Lemma animations_throws_exactly_when_witness :
  ∃ s, Animations.animations Sample.check Sample.indexNamed
         (Sample.act "CHANGE_ANIMATION_TYPE" (Some "p") (Some "0")) = Throws s.
Proof.
  apply (proj1 (animations_throws_exactly_when Sample.check Sample.indexNamed
                  (Sample.act "CHANGE_ANIMATION_TYPE" (Some "p") (Some "0"))
                  ltac:(compute_done))).
  split_and!; [reflexivity | reflexivity |].
  exists 0%nat, (Entry.create (Some "0") None (Some "fade-in")).
  split_and!; [reflexivity | reflexivity | reflexivity |].
  exists 0%nat. split; [vm_compute; lia | compute_done].
Defined.

(** Stopping every animation of the chain twice. *)
Lemma repeated_update_changes_nothing_witness :
  settle (settle Sample.chain
            (Animations.animations Sample.check Sample.chain
               (Sample.act "STOP_ANIMATION" (Some "p") None)))
    (Animations.animations Sample.check
       (settle Sample.chain
          (Animations.animations Sample.check Sample.chain
             (Sample.act "STOP_ANIMATION" (Some "p") None)))
       (Sample.act "STOP_ANIMATION" (Some "p") None))
  = settle Sample.chain
      (Animations.animations Sample.check Sample.chain
         (Sample.act "STOP_ANIMATION" (Some "p") None)).
Proof.
  apply (repeated_update_changes_nothing Sample.check Sample.chain
           (Sample.act "STOP_ANIMATION" (Some "p") None)).
  compute_done.
Defined.

(** Playing the animations of page [q], which the chain's state lacks. *)
Lemma action_on_unknown_page_starts_its_sequence_witness :
  ∃ st',
    Animations.animations Sample.check Sample.chain
      (Sample.act "PLAY_ANIMATION" (Some "q") None) = NewVal st'
    ∧ Animations.orderOf st' !! "q" = Some [].
Proof.
  destruct (action_on_unknown_page_starts_its_sequence Sample.check
              Sample.chain (Sample.act "PLAY_ANIMATION" (Some "q") None))
    as (Hupd & _ & _); [compute_done | reflexivity |].
  apply Hupd. compute_done.
Defined.

(** Moving a page [z] that the order a, b, c lacks, to the front. *)
Lemma move_page_always_permutes_witness :
  ∃ o', Blocks.blocks (Blocks.mk (Some ["a"; "b"; "c"]) (Some true))
          (Action.mk "MOVE_PAGE" (Some "z") None None None None None None
             (Some 0))
        = NewVal (Blocks.mk (Some o') (Some true))
    ∧ o' ≡ₚ ["a"; "b"; "c"].
Proof.
  destruct (move_page_always_permutes
              (Blocks.mk (Some ["a"; "b"; "c"]) (Some true))
              (Action.mk "MOVE_PAGE" (Some "z") None None None None None None
                 (Some 0))
              ["a"; "b"; "c"])
    as (o' & Hret & Hperm & _); [reflexivity | reflexivity |].
  exists o'. split; [exact Hret | exact Hperm].
Defined.

(** The same move: it is the last block, [c], that goes to the front. *)
Lemma move_absent_page_moves_last_block_witness :
  Blocks.blocks (Blocks.mk (Some ["a"; "b"; "c"]) (Some true))
    (Action.mk "MOVE_PAGE" (Some "z") None None None None None None (Some 0))
  = NewVal (Blocks.mk (Some ["c"; "a"; "b"]) (Some true)).
Proof.
  destruct (move_absent_page_moves_last_block
              (Blocks.mk (Some ["a"; "b"; "c"]) (Some true))
              (Action.mk "MOVE_PAGE" (Some "z") None None None None None None
                 (Some 0))
              ["a"; "b"] "c")
    as (j & -> & _ & _ & Hret & _); [reflexivity | reflexivity | |].
  - intros p [= <-]. compute_done.
  - exact Hret.
Defined.

(** Moving [a] of the order a, b, c to index 7, beyond the end. *)
Lemma moved_page_stands_at_index_witness :
  ∃ o', Blocks.blocks (Blocks.mk (Some ["a"; "b"; "c"]) None)
          (Action.mk "MOVE_PAGE" (Some "a") None None None None None None
             (Some 7))
        = NewVal (Blocks.mk (Some o') None)
    ∧ o' !! 2%nat = Some "a".
Proof.
  destruct (moved_page_stands_at_index
              (Blocks.mk (Some ["a"; "b"; "c"]) None)
              (Action.mk "MOVE_PAGE" (Some "a") None None None None None None
                 (Some 7))
              ["a"; "b"; "c"] "a")
    as (o' & Hret & Hpos & _);
    [reflexivity | reflexivity | reflexivity | compute_done |].
  exists o'. split; [exact Hret|]. apply Hpos. simpl. lia.
Defined.

(** Moving [b] of the order a, b, c to the end and back to index 1. *)
Lemma move_page_back_restores_order_witness :
  Blocks.movePage (Blocks.movePage ["a"; "b"; "c"] (Some "b") (Some 2))
    (Some "b") (Some 1)
  = ["a"; "b"; "c"].
Proof.
  apply (move_page_back_restores_order ["a"] ["c"] "b" (Some 2));
    compute_done.
Defined.

(** Moving [b] of the order a, b, c to index 1, where it is. *)
Lemma move_page_to_own_index_is_identity_witness :
  Blocks.movePage ["a"; "b"; "c"] (Some "b")
    (Some (Js.indexOf ["a"; "b"; "c"] (Some "b")))
  = ["a"; "b"; "c"].
Proof.
  apply (move_page_to_own_index_is_identity ["a"; "b"; "c"] "b").
  compute_done.
Defined.

(** Two moves on the order a, b, c. *)
Lemma move_page_run_permutes_witness :
  ∃ o',
    Blocks.order
      (Store.dispatchAll Blocks.blocks
         (Blocks.mk (Some ["a"; "b"; "c"]) (Some true))
         [ Action.mk "MOVE_PAGE" (Some "a") None None None None None None
             (Some 2);
           Action.mk "MOVE_PAGE" (Some "z") None None None None None None
             (Some (-1)) ])
    = Some o'
    ∧ o' ≡ₚ ["a"; "b"; "c"].
Proof.
  destruct (move_page_run_permutes
              (Blocks.mk (Some ["a"; "b"; "c"]) (Some true))
              [ Action.mk "MOVE_PAGE" (Some "a") None None None None None
                  None (Some 2);
                Action.mk "MOVE_PAGE" (Some "z") None None None None None
                  None (Some (-1)) ]
              ["a"; "b"; "c"])
    as (o' & Ho' & Hperm & _); [reflexivity | |].
  - repeat constructor.
  - exists o'. split; [exact Ho' | exact Hperm].
Defined.

(** Moving a page on the initial state, which has no order. *)
Lemma blocks_throws_exactly_when_witness :
  ∃ s, Blocks.blocks Blocks.initial
         (Action.mk "MOVE_PAGE" (Some "a") None None None None None None
            (Some 0)) = Throws s.
Proof.
  apply (proj1 (blocks_throws_exactly_when Blocks.initial
                  (Action.mk "MOVE_PAGE" (Some "a") None None None None None
                     None (Some 0)))).
  split; reflexivity.
Defined.

(** A right click with two blocks selected at once. *)
Lemma context_menu_ignored_without_single_selection_witness :
  ContextMenu.onContextMenu ["a"; "b"] true 10 20
    (ContextMenu.mk true [] false)
  = ContextMenu.Returned (ContextMenu.mk true [] false).
Proof.
  apply (context_menu_ignored_without_single_selection ["a"; "b"] true 10 20
           (ContextMenu.mk true [] false)).
  right. reflexivity.
Defined.

(** The first right click on a block, on a page with an edit layout. *)
Lemma context_menu_renders_in_one_wrapper_witness :
  ∃ p', ContextMenu.onContextMenu ["a"] false 10 20
          (ContextMenu.mk true [] false) = ContextMenu.Returned p'
    ∧ ContextMenu.wrappers p' = [Some (ContextMenu.mkMenu ["a"] 10 20)].
Proof.
  destruct (context_menu_renders_in_one_wrapper ["a"] 10 20
              (ContextMenu.mk true [] false))
    as (p' & Hret & Hw & _); [done | by right |].
  exists p'. split; [exact Hret | exact Hw].
Defined.

(** A right click on a block, on a page without an edit layout. *)
Lemma context_menu_throws_exactly_when_witness :
  ∃ q, ContextMenu.onContextMenu ["a"] false 10 20
         (ContextMenu.mk false [] false) = ContextMenu.Threw q.
Proof.
  apply (proj1 (context_menu_throws_exactly_when ["a"] false 10 20
                  (ContextMenu.mk false [] false))).
  split_and!; [done | reflexivity | reflexivity | reflexivity].
Defined.

(** Two right clicks in a row. *)
Lemma context_menu_run_keeps_one_wrapper_witness :
  (length (ContextMenu.wrappers
             (ContextMenu.handleAll
                [ ContextMenu.mkEvent ["a"] false 10 20;
                  ContextMenu.mkEvent ["b"] false 30 40 ]
                (ContextMenu.mk true [] false))) ≤ 1)%nat.
Proof.
  apply (context_menu_run_keeps_one_wrapper
           [ ContextMenu.mkEvent ["a"] false 10 20;
             ContextMenu.mkEvent ["b"] false 30 40 ]
           (ContextMenu.mk true [] false)).
  simpl. lia.
Defined.
